(** * bad_cpp_sample.cpp: a shallow embedding and the properties it has

    The translation unit is modelled over one explicit program state:
    the globals [g_buffer], [g_counter], [g_mutex] and
    [BadSingleton::instance], the table of live heap blocks, a flat
    byte memory, the table of open [FILE] streams and the two standard
    streams.  Every function of the source that the properties below
    talk about is a Rocq function on that state; the two places where
    threads meet ([g_counter++] and [getInstance]) are also given as
    small-step machines, run under an explicit schedule.

    Conventions of the model:
    - [int] is a [Z] kept in the 32-bit two's-complement range by
      [wrap32];
    - pointers are addresses in [Z], [NULL] is [0];
    - [malloc], [operator new] and [fopen] always obtain their
      resource (unbounded memory, permissive file system);
    - a C string is the list of its bytes without the terminating NUL,
      which the copying functions write out. *)

From Stdlib Require Import ZArith Lia List Strings.String Strings.Byte
  DecimalString.
From stdpp Require Import gmap list.

Open Scope Z_scope.

(** ** 32-bit [int] arithmetic *)

Definition int_min : Z := - 2 ^ 31.
Definition int_max : Z := 2 ^ 31 - 1.

Definition in_int (z : Z) : Prop := int_min <= z <= int_max.

(** The value an [int] computation leaves in a 32-bit register. *)
Definition wrap32 (z : Z) : Z := (z + 2 ^ 31) mod 2 ^ 32 - 2 ^ 31.

(** What a function hands back: an [int], or the content of a local
    that was never written. *)
Inductive int_result : Type :=
  | Int (z : Z)
  | Indeterminate.

(** [int calculate_buffer_size(int num_elements, int element_size)] *)
Definition calculate_buffer_size (num_elements element_size : Z) : int_result :=
  let total_size := wrap32 (num_elements * element_size) in
  if 0 <? total_size then Int total_size
  else (* int result; return result; *) Indeterminate.

(** ** Pointers, heap blocks and byte memory *)

Definition NULL : Z := 0.

(** The three allocation families the source mixes. *)
Inductive alloc_kind : Type :=
  | ByNew          (* new T()   *)
  | ByNewArray     (* new T[n]  *)
  | ByMalloc.      (* malloc(n) *)

Record block : Type := Block { kind : alloc_kind; size_of : Z }.

Inductive mutex : Type :=
  | MutexUninit      (* storage only: pthread_mutex_init never ran *)
  | MutexUnlocked
  | MutexLocked.

Record state : Type := State {
  g_buffer : Z;                      (* char* g_buffer = NULL;     *)
  g_counter : Z;                     (* int g_counter = 0;         *)
  g_mutex : mutex;                   (* pthread_mutex_t g_mutex;   *)
  instance : Z;                      (* BadSingleton::instance     *)
  blocks : gmap Z block;             (* live allocations, by base  *)
  brk : Z;                           (* next address handed out    *)
  mem : gmap Z byte;                 (* bytes written so far       *)
  files : gmap Z (string * string);  (* open streams: path, mode   *)
  next_file : Z;                     (* next FILE* handed out      *)
  stdin : list byte;
  stdout : list byte
}.

Definition set_g_buffer (v : Z) (s : state) : state :=
  State v (g_counter s) (g_mutex s) (instance s) (blocks s) (brk s) (mem s)
        (files s) (next_file s) (stdin s) (stdout s).

Definition set_g_counter (v : Z) (s : state) : state :=
  State (g_buffer s) v (g_mutex s) (instance s) (blocks s) (brk s) (mem s)
        (files s) (next_file s) (stdin s) (stdout s).

Definition set_g_mutex (v : mutex) (s : state) : state :=
  State (g_buffer s) (g_counter s) v (instance s) (blocks s) (brk s) (mem s)
        (files s) (next_file s) (stdin s) (stdout s).

Definition set_instance (v : Z) (s : state) : state :=
  State (g_buffer s) (g_counter s) (g_mutex s) v (blocks s) (brk s) (mem s)
        (files s) (next_file s) (stdin s) (stdout s).

Definition set_mem (v : gmap Z byte) (s : state) : state :=
  State (g_buffer s) (g_counter s) (g_mutex s) (instance s) (blocks s) (brk s) v
        (files s) (next_file s) (stdin s) (stdout s).

Definition set_stdin (v : list byte) (s : state) : state :=
  State (g_buffer s) (g_counter s) (g_mutex s) (instance s) (blocks s) (brk s)
        (mem s) (files s) (next_file s) v (stdout s).

Definition set_stdout (v : list byte) (s : state) : state :=
  State (g_buffer s) (g_counter s) (g_mutex s) (instance s) (blocks s) (brk s)
        (mem s) (files s) (next_file s) (stdin s) v.

(** The state the C++ runtime sets up before [main]: the initialisers
    of the four globals, an empty heap starting above [NULL], and no
    stream opened by the program.  [g_mutex] has no initialiser and no
    [pthread_mutex_init] call exists in the file. *)
Definition initial_state (input : list byte) : state :=
  State NULL 0 MutexUninit NULL ∅ 4096 ∅ ∅ 1 input [].

(** *** Allocation

    A request is served at [brk]; the break then moves past the block
    (at least one byte, so that two blocks never share a base). *)
Definition allocate (k : alloc_kind) (n : Z) (s : state) : Z * state :=
  let p := brk s in
  (p, State (g_buffer s) (g_counter s) (g_mutex s) (instance s)
            (<[p := Block k n]> (blocks s)) (p + Z.max n 1) (mem s)
            (files s) (next_file s) (stdin s) (stdout s)).

Definition malloc (n : Z) : state -> Z * state := allocate ByMalloc n.

(** [operator delete] / [free]: the block leaves the table. *)
Definition release (p : Z) (s : state) : state :=
  State (g_buffer s) (g_counter s) (g_mutex s) (instance s)
        (delete p (blocks s)) (brk s) (mem s)
        (files s) (next_file s) (stdin s) (stdout s).

(** [fopen(path, mode)] *)
Definition fopen (path mode : string) (s : state) : Z * state :=
  let f := next_file s in
  (f, State (g_buffer s) (g_counter s) (g_mutex s) (instance s)
            (blocks s) (brk s) (mem s)
            (<[f := (path, mode)]> (files s)) (f + 1) (stdin s) (stdout s)).

(** *** Bytes *)

Fixpoint store_bytes (p : Z) (bs : list byte) (m : gmap Z byte) : gmap Z byte :=
  match bs with
  | [] => m
  | b :: bs' => store_bytes (p + 1) bs' (<[p := b]> m)
  end.

(** Length of the C string at [p]: the distance to the first NUL.
    Reading a byte that was never written has no defined result. *)
Fixpoint strlen_from (fuel : nat) (m : gmap Z byte) (p : Z) : option Z :=
  match fuel with
  | O => None
  | S fuel' =>
      match m !! p with
      | None => None
      | Some b =>
          if Byte.eqb b x00 then Some 0
          else option_map Z.succ (strlen_from fuel' m (p + 1))
      end
  end.

Definition strlen (m : gmap Z byte) (p : Z) : option Z :=
  strlen_from (S (size m)) m p.

Fixpoint load_bytes (n : nat) (m : gmap Z byte) (p : Z) : list byte :=
  match n with
  | O => []
  | S n' =>
      match m !! p with
      | Some b => b :: load_bytes n' m (p + 1)
      | None => []
      end
  end.

(** The C string at [p], without its NUL. *)
Definition load_cstr (m : gmap Z byte) (p : Z) : option (list byte) :=
  option_map (fun n => load_bytes (Z.to_nat n) m p) (strlen m p).

(** [p[0] = b] and the value of [p[0]]. *)
Definition store_byte (p : Z) (b : byte) (s : state) : state :=
  set_mem (<[p := b]> (mem s)) s.

Definition load_byte (p : Z) (s : state) : option byte := mem s !! p.

(** [strcpy(dst, src)]: the bytes of [src] and a NUL, from [dst] on,
    whatever the size of the object at [dst]. *)
Definition strcpy (dst : Z) (src : list byte) (s : state) : state :=
  set_mem (store_bytes dst (src ++ [x00]) (mem s)) s.

(** [strcat(dst, src)]: the same, from the NUL of the string at [dst]
    on.  [None] when no string is found there. *)
Definition strcat (dst : Z) (src : list byte) (s : state) : option state :=
  match strlen (mem s) dst with
  | Some n => Some (strcpy (dst + n) src s)
  | None => None
  end.

Definition cstr (t : string) : list byte := list_byte_of_string t.

(** Sizes of the two class objects under the LP64 layout (pointers of
    8 bytes, [int] of 4); nothing below depends on the numbers. *)
Definition sizeof_int : Z := 4.
Definition sizeof_BadResourceManager : Z := 24.
Definition sizeof_BadSingleton : Z := 8.

(** ** [class BadResourceManager] *)

Module BadResourceManager.

Record t : Type := Build {
  data : Z;           (* char* data        *)
  file_handle : Z;    (* FILE* file_handle *)
  buffer_size : Z     (* int buffer_size   *)
}.

(** [BadResourceManager()] *)
Definition ctor (s : state) : t * state :=
  let '(d, s1) := allocate ByNewArray 1024 s in
  let '(f, s2) := fopen "/data/temp.txt" "w" s1 in
  (Build d f 1024, s2).

(** [~BadResourceManager()]: the body holds two comments only. *)
Definition dtor (this : t) (s : state) : state := s.

(** [BadResourceManager(const BadResourceManager& other)] *)
Definition copy_ctor (other : t) (s : state) : t * state :=
  (Build (data other) (file_handle other) (buffer_size other), s).

(** [new BadResourceManager()]: storage for the object, then the
    constructor. *)
Definition new_ (s : state) : Z * t * state :=
  let '(p, s1) := allocate ByNew sizeof_BadResourceManager s in
  let '(obj, s2) := ctor s1 in
  (p, obj, s2).

End BadResourceManager.

(** ** [class DerivedBadClass : public BadResourceManager] *)

Module DerivedBadClass.

Record t : Type := Build {
  base : BadResourceManager.t;
  extra_data : Z      (* void* extra_data *)
}.

(** [DerivedBadClass()]: the base constructor runs first. *)
Definition ctor (s : state) : t * state :=
  let '(b, s1) := BadResourceManager.ctor s in
  let '(e, s2) := malloc 2048 s1 in
  (Build b e, s2).

(** The class declares no destructor.  The implicit one destroys the
    members (a raw pointer: nothing to do) and then the base. *)
Definition dtor (this : t) (s : state) : state :=
  BadResourceManager.dtor (base this) s.

(** Destruction through a [BadResourceManager*]: the base destructor
    is not virtual, so it is the only one that is called. *)
Definition dtor_via_base (this : t) (s : state) : state :=
  BadResourceManager.dtor (base this) s.

End DerivedBadClass.

(** ** [unsafe_string_operation] *)

Definition newline : byte := x0a.

Fixpoint read_line (input : list byte) : list byte * list byte :=
  match input with
  | [] => ([], [])
  | b :: rest =>
      if Byte.eqb b newline then ([], rest)
      else let '(l, r) := read_line rest in (b :: l, r)
  end.

(** [gets(dst)]: one line of standard input, without its newline, as
    a C string at [dst]; at end of file nothing is stored. *)
Definition gets (dst : Z) (s : state) : state :=
  match stdin s with
  | [] => s
  | _ :: _ =>
      let '(line, rest) := read_line (stdin s) in
      set_stdin rest (strcpy dst line s)
  end.

(** [printf("Result: %s\n", p)] *)
Definition printf_result (p : Z) (s : state) : option state :=
  match load_cstr (mem s) p with
  | Some t => Some (set_stdout (stdout s ++ cstr "Result: " ++ t ++ [newline]) s)
  | None => None
  end.

Definition local_buffer_size : Z := 64.

(** [void unsafe_string_operation(const char* input)], with
    [char local_buffer[64]] placed at address [local_buffer]. *)
Definition unsafe_string_operation (local_buffer : Z) (input : list byte)
    (s : state) : option state :=
  let s1 := strcpy local_buffer input s in
  match strcat local_buffer (cstr "_suffix") s1 with
  | Some s2 => printf_result local_buffer (gets local_buffer s2)
  | None => None
  end.

(** ** [thread_function] *)

(** [void* thread_function(void* arg)], run without interruption. *)
Definition thread_function (arg : Z) (s : state) : Z * state :=
  let s1 := set_g_counter (wrap32 (g_counter s + 1)) s in
  let s2 := if g_buffer s1 =? NULL then s1
            else strcpy (g_buffer s1) (cstr "Thread was here") s1 in
  let '(temp, s3) := malloc 1000 s2 in
  let s4 := strcpy temp (cstr "Some data") s3 in
  (NULL, s4).

(** The same body as a machine whose steps are the accesses to shared
    objects: [g_counter++] is a read, an addition in a register and a
    write. *)
Inductive worker : Type :=
  | W_read                (* about to read g_counter             *)
  | W_write (tmp : Z)     (* holds the value read                *)
  | W_text                (* about to test g_buffer              *)
  | W_temp                (* about to malloc(1000)               *)
  | W_done (ret : Z).     (* returned                            *)

Definition worker_step (w : worker) (s : state) : worker * state :=
  match w with
  | W_read => (W_write (g_counter s), s)
  | W_write tmp => (W_text, set_g_counter (wrap32 (tmp + 1)) s)
  | W_text =>
      (W_temp, if g_buffer s =? NULL then s
               else strcpy (g_buffer s) (cstr "Thread was here") s)
  | W_temp =>
      let '(temp, s1) := malloc 1000 s in
      (W_done NULL, strcpy temp (cstr "Some data") s1)
  | W_done r => (W_done r, s)
  end.

(** ** Threads under a schedule

    A pool of threads of one kind shares the state; a schedule names,
    step by step, the thread that moves. *)
Section Pool.
Context {T : Type} (step : T -> state -> T * state).

Definition sched_step (c : list T * state) (i : nat) : list T * state :=
  match c.1 !! i with
  | Some t => let '(t', s') := step t c.2 in (<[i := t']> c.1, s')
  | None => c
  end.

Definition run_schedule (sch : list nat) (c : list T * state) : list T * state :=
  foldl sched_step c sch.
End Pool.

Definition worker_finished (w : worker) : bool :=
  match w with W_done _ => true | _ => false end.

(** Steps a worker still has to make before it has returned. *)
Definition steps_left (w : worker) : nat :=
  match w with
  | W_read => 4
  | W_write _ => 3
  | W_text => 2
  | W_temp => 1
  | W_done _ => 0
  end.

(** The local states a thread started at [W_read] goes through. *)
Definition worker_ok (w : worker) : Prop :=
  match w with
  | W_done r => r = NULL
  | _ => True
  end.

(** [n] threads at the entry of [thread_function]. *)
Definition workers (n : nat) : list worker := replicate n W_read.

(** ** [class BadSingleton] *)

Module BadSingleton.

Record t : Type := Build { data : Z (* int* data *) }.

(** [BadSingleton()] *)
Definition ctor (s : state) : t * state :=
  let '(d, s1) := allocate ByNewArray (1000 * sizeof_int) s in
  (Build d, s1).

(** [~BadSingleton() {}] *)
Definition dtor (this : Z) (s : state) : state := s.

(** [new BadSingleton()] *)
Definition new_ (s : state) : Z * state :=
  let '(p, s1) := allocate ByNew sizeof_BadSingleton s in
  let '(_, s2) := ctor s1 in
  (p, s2).

(** [delete p], which the public destructor lets any caller write:
    the destructor, then the object's storage is given back.  The
    static [instance] is not touched. *)
Definition delete_ (p : Z) (s : state) : state := release p (dtor p s).

(** [static BadSingleton* getInstance()], run without interruption. *)
Definition getInstance (s : state) : Z * state :=
  let s1 := if instance s =? NULL
            then let '(p, s') := new_ s in set_instance p s'
            else s in
  (instance s1, s1).

(** The same body, one step per access to [instance]. *)
Inductive caller : Type :=
  | G_test               (* about to read instance for the test *)
  | G_construct          (* saw nullptr                         *)
  | G_return             (* about to read instance to return it *)
  | G_done (ret : Z).

Definition caller_step (c : caller) (s : state) : caller * state :=
  match c with
  | G_test => (if instance s =? NULL then G_construct else G_return, s)
  | G_construct => let '(p, s') := new_ s in (G_return, set_instance p s')
  | G_return => (G_done (instance s), s)
  | G_done r => (G_done r, s)
  end.

(** Number of [BadSingleton] objects in the heap: each one is the
    only kind of block obtained by plain [new] with that size. *)
Definition is_singleton_block (b : block) : bool :=
  match kind b with
  | ByNew => size_of b =? sizeof_BadSingleton
  | _ => false
  end.

Definition constructed (s : state) : nat :=
  length (filter (fun kb => is_singleton_block kb.2 = true)
                 (map_to_list (blocks s))).

End BadSingleton.

(** ** [main], up to the end of its critical section

    [main] and the threads it creates form one system.  A step either
    yields the next configuration, or has no defined behaviour. *)

Inductive outcome (A : Type) : Type :=
  | Steps (a : A)
  | Blocks
  | Undefined.
Arguments Steps {A} a.
Arguments Blocks {A}.
Arguments Undefined {A}.

(** [pthread_mutex_lock(&g_mutex)] *)
Definition pthread_mutex_lock (s : state) : outcome state :=
  match g_mutex s with
  | MutexUninit => Undefined
  | MutexUnlocked => Steps (set_g_mutex MutexLocked s)
  | MutexLocked => Blocks
  end.

(** [pthread_mutex_unlock(&g_mutex)] *)
Definition pthread_mutex_unlock (s : state) : outcome state :=
  match g_mutex s with
  | MutexLocked => Steps (set_g_mutex MutexUnlocked s)
  | _ => Undefined
  end.

Inductive main_pc : Type :=
  | M_print               (* printf("First argument: %s\n", argv[1]) *)
  | M_manager             (* new BadResourceManager()                *)
  | M_derived             (* DerivedBadClass derived;                *)
  | M_create1             (* pthread_create(&thread1, ...)           *)
  | M_create2             (* pthread_create(&thread2, ...)           *)
  | M_lock                (* pthread_mutex_lock(&g_mutex)            *)
  | M_read                (* g_counter++ : the read                  *)
  | M_write (tmp : Z)     (*               the write                 *)
  | M_unlock              (* pthread_mutex_unlock(&g_mutex)          *)
  | M_rest.               (* line 274 on: not modelled               *)

Record config : Type := Config {
  pc : main_pc;
  pool : list worker;
  st : state
}.

Definition main_step (argv : list (list byte)) (c : config) : outcome config :=
  let s := st c in
  match pc c with
  | M_print =>
      match argv !! 1%nat with
      | Some a =>
          Steps (Config M_manager (pool c)
                   (set_stdout (stdout s ++ cstr "First argument: " ++ a ++ [newline]) s))
      | None => Undefined      (* argv[1] is a null pointer *)
      end
  | M_manager =>
      let '(_, _, s1) := BadResourceManager.new_ s in
      Steps (Config M_derived (pool c) s1)
  | M_derived =>
      let '(_, s1) := DerivedBadClass.ctor s in
      Steps (Config M_create1 (pool c) s1)
  | M_create1 => Steps (Config M_create2 (pool c ++ [W_read]) s)
  | M_create2 => Steps (Config M_lock (pool c ++ [W_read]) s)
  | M_lock =>
      match pthread_mutex_lock s with
      | Steps s1 => Steps (Config M_read (pool c) s1)
      | Blocks => Blocks
      | Undefined => Undefined
      end
  | M_read => Steps (Config (M_write (g_counter s)) (pool c) s)
  | M_write tmp =>
      Steps (Config M_unlock (pool c) (set_g_counter (wrap32 (tmp + 1)) s))
  | M_unlock =>
      match pthread_mutex_unlock s with
      | Steps s1 => Steps (Config M_rest (pool c) s1)
      | Blocks => Blocks
      | Undefined => Undefined
      end
  | M_rest => Blocks
  end.

Inductive action : Type :=
  | Main
  | Worker (i : nat).

Definition system_step (argv : list (list byte)) (a : action) (c : config)
  : outcome config :=
  match a with
  | Main => main_step argv c
  | Worker i =>
      let '(p, s) := sched_step worker_step (pool c, st c) i in
      Steps (Config (pc c) p s)
  end.

Fixpoint run_system (argv : list (list byte)) (acts : list action) (c : config)
  : outcome config :=
  match acts with
  | [] => Steps c
  | a :: acts' =>
      match system_step argv a c with
      | Steps c' => run_system argv acts' c'
      | Blocks => Blocks
      | Undefined => Undefined
      end
  end.

Definition initial_config (input : list byte) : config :=
  Config M_print [] (initial_state input).

(** The configurations the program can be in. *)
Inductive reachable (argv : list (list byte)) (input : list byte) : config -> Prop :=
  | reachable_init : reachable argv input (initial_config input)
  | reachable_step a c c' :
      reachable argv input c ->
      system_step argv a c = Steps c' ->
      reachable argv input c'.

(** ** Well-formed heaps *)

(** Every live block lies below the break. *)
Definition heap_wf (s : state) : Prop :=
  forall p b, blocks s !! p = Some b -> p < brk s.

(** ** Executions and states referred to below *)

(** Two workers: both read [g_counter], then both write. *)
Definition lost_update_schedule : list nat := [0; 1; 0; 1; 0; 0; 1; 1]%nat.

(** [n] workers, each run to its end before the next one starts. *)
Definition serial_schedule (n : nat) : list nat :=
  flat_map (replicate 4) (seq 0 n).

(** Two first calls of [getInstance]: both test, then both construct. *)
Definition racing_first_calls : list nat := [0; 1; 0; 0; 1; 1]%nat.

(** The argument [main] passes to [unsafe_string_operation]. *)
Definition long_input : list byte :=
  cstr "This is a very long string that will definitely cause buffer overflow".

(** A state in which the shared text exists:
    [g_buffer = (char* )malloc(8); strcpy(g_buffer, "abc");] *)
Definition small_shared_text : state :=
  let '(p, s) := malloc 8 (initial_state []) in
  strcpy p (cstr "abc") (set_g_buffer p s).

(** A command line with one argument. *)
Definition argv_one : list (list byte) := [cstr "a.out"; cstr "x"].

(** [n] calls of [thread_function], one after the other. *)
Fixpoint run_serially (n : nat) (s : state) : state :=
  match n with
  | O => s
  | S n' => run_serially n' (thread_function NULL s).2
  end.

(** ** [fibonacci_bad] *)

(** [int fibonacci_bad(int n)].  [depth] is the number of nested calls
    the stack has room for; without room no value comes back. *)
Fixpoint fibonacci_bad (depth : nat) (n : Z) : option Z :=
  match depth with
  | O => None
  | S depth' =>
      if n <=? 1 then Some n
      else
        match fibonacci_bad depth' (n - 1), fibonacci_bad depth' (n - 2) with
        | Some a, Some b => Some (wrap32 (a + b))
        | _, _ => None
        end
  end.

(** The Fibonacci numbers. *)
Fixpoint fib_pair (k : nat) : Z * Z :=
  match k with
  | O => (0, 1)
  | S k' => let '(a, b) := fib_pair k' in (b, a + b)
  end.

Definition fib (k : nat) : Z := (fib_pair k).1.

(** The value a call returns when the stack is deep enough. *)
Definition fibonacci_value (n : Z) : Z :=
  if n <=? 1 then n else wrap32 (fib (Z.to_nat n)).

(** Nested calls an argument needs. *)
Definition frames (n : Z) : nat := Z.to_nat (Z.max n 1).

(** ** [Java_com_example_BadClass_processString] *)

(** What the function sees of the JNI environment: the number of
    native strings obtained from [GetStringUTFChars] and not given back
    with [ReleaseStringUTFChars].  A Java string is the list of the
    bytes of its (modified) UTF-8 form. *)
Record jni_env : Type := JniEnv { utf_chars_held : nat }.

(** [env->GetStringUTFChars(input, NULL)] *)
Definition GetStringUTFChars (input : list byte) (env : jni_env)
  : list byte * jni_env :=
  (input, JniEnv (S (utf_chars_held env))).

(** [env->NewStringUTF(p)]: the C string at [p], as a Java string. *)
Definition NewStringUTF (p : Z) (s : state) : option (list byte) :=
  load_cstr (mem s) p.

Definition processed_prefix : list byte := cstr "Processed: ".
Definition processed_suffix : list byte :=
  cstr " with extra long suffix that might overflow".

Definition result_size : Z := 100.

(** The function, with [char result[100]] placed at address [result].
    It returns the Java string (if one can be read back), the
    environment and the state. *)
Definition processString (result : Z) (input : list byte) (env : jni_env)
    (s : state) : option (list byte) * jni_env * state :=
  let '(native_string, env1) := GetStringUTFChars input env in
  (* sprintf(result, "Processed: %s with ...", native_string) *)
  let s1 := strcpy result (processed_prefix ++ native_string ++ processed_suffix) s in
  (NewStringUTF result s1, env1, s1).

(** ** [container_misuse] *)

(** [%d] *)
Definition decimal (i : Z) : list byte :=
  cstr (NilZero.string_of_int (Z.to_int i)).

(** The [for] loop, [fuel] bounding the number of iterations. *)
Fixpoint container_misuse_loop (fuel : nat) (i : Z) (string_map : gmap Z Z)
    (s : state) : gmap Z Z * state :=
  match fuel with
  | O => (string_map, s)
  | S fuel' =>
      if i <? 100 then
        let '(str, s1) := malloc 50 s in
        let s2 := strcpy str (cstr "String " ++ decimal i) s1 in
        container_misuse_loop fuel' (wrap32 (i + 1)) (<[i := str]> string_map) s2
      else (string_map, s)
  end.

(** [void container_misuse()]: the map as it is after [clear()], and
    the state. *)
Definition container_misuse (s : state) : gmap Z Z * state :=
  let '(string_map, s1) := container_misuse_loop 101 0 ∅ s in
  (∅, s1).

(** ** [exception_safety_issues] *)

Inductive exception : Type := out_of_range.

(** How a call that may throw ends. *)
Inductive completion : Type :=
  | Returns (s : state)
  | Throws (e : exception) (s : state).

(** [fclose(f)] *)
Definition fclose (f : Z) (s : state) : state :=
  State (g_buffer s) (g_counter s) (g_mutex s) (instance s)
        (blocks s) (brk s) (mem s)
        (delete f (files s)) (next_file s) (stdin s) (stdout s).

(** [vec.at(i)] *)
Definition vector_at (vec : list Z) (i : Z) : option Z :=
  if (0 <=? i) && (i <? Z.of_nat (length vec)) then vec !! Z.to_nat i
  else None.

(** [void exception_safety_issues()] *)
Definition exception_safety_issues (s : state) : completion :=
  let '(file, s1) := fopen "test.txt" "w" s in
  let '(buffer, s2) := allocate ByNewArray 1000 s1 in
  let vec : list Z := [] in
  match vector_at vec 100 with
  | None => Throws out_of_range s2
  | Some _ => Returns (release buffer (fclose file s2))
  end.

(** ** Measures used in the properties *)

(** A worker that has stored into [g_counter]. *)
Definition has_written (w : worker) : bool :=
  match w with
  | W_read | W_write _ => false
  | _ => true
  end.

Fixpoint count_written (p : list worker) : nat :=
  match p with
  | [] => 0
  | w :: p' => (if has_written w then 1 else 0) + count_written p'
  end.

(** No NUL among the bytes: the list is the content of a C string. *)
Definition nul_free (t : list byte) : Prop := Forall (fun b => b <> x00) t.

(** No newline among the bytes: the list is one line. *)
Definition one_line (t : list byte) : Prop := Forall (fun b => b <> newline) t.

(** The text [unsafe_string_operation] finds in [local_buffer] when it
    prints: its argument and the suffix, unless a line was read over it. *)
Definition printed_text (input stdin_bytes : list byte) : list byte :=
  match stdin_bytes with
  | [] => input ++ cstr "_suffix"
  | _ :: _ => (read_line stdin_bytes).1
  end.


(** What holds of [g_counter] while workers run, [c0] being its value
    when they started: it has gone up by at most the number of workers
    that have written, by at least one if any has, and the values
    workers hold in a register are in the same range. *)
Definition counter_inv (c0 : Z) (c : list worker * state) : Prop :=
  let k := Z.of_nat (count_written c.1) in
  c0 <= g_counter c.2 <= c0 + k
  /\ (0 < k -> c0 + 1 <= g_counter c.2)
  /\ Forall (fun w => match w with
                      | W_write tmp => c0 <= tmp <= c0 + k
                      | _ => True
                      end) c.1.

(** [p] points to a [BadSingleton] that is in the heap. *)
Definition singleton_at (s : state) (p : Z) : Prop :=
  p <> NULL /\ blocks s !! p = Some (Block ByNew sizeof_BadSingleton).

(** What holds while callers of [getInstance] run. *)
Definition callers_inv (c : list BadSingleton.caller * state) : Prop :=
  heap_wf c.2 /\ 0 < brk c.2
  /\ (instance c.2 <> NULL -> singleton_at c.2 (instance c.2))
  /\ Forall (fun t => match t with
                      | BadSingleton.G_return => instance c.2 <> NULL
                      | BadSingleton.G_done r => singleton_at c.2 r
                      | _ => True
                      end) c.1.

(** * Properties *)

(** ** Integers *)

Lemma wrap32_range (z : Z) : in_int (wrap32 z).
Proof.
  unfold in_int, wrap32, int_min, int_max.
  pose proof (Z.mod_pos_bound (z + 2 ^ 31) (2 ^ 32)). lia.
Qed.

Lemma wrap32_id (z : Z) : in_int z -> wrap32 z = z.
Proof.
  unfold in_int, wrap32, int_min, int_max. intros H.
  rewrite Z.mod_small; lia.
Qed.

(** C10: for 32-bit [num_elements] and [element_size],
    [calculate_buffer_size] returns the product reduced to 32 bits
    whenever that reduced value is strictly positive; the test is made
    on the reduced value, and when it is not positive the value
    returned is that of a local that was never written. *)
Theorem calculate_buffer_size_wrapped (num_elements element_size : Z) :
  in_int num_elements -> in_int element_size ->
  (0 < wrap32 (num_elements * element_size) ->
     calculate_buffer_size num_elements element_size
     = Int (wrap32 (num_elements * element_size)))
  /\ (wrap32 (num_elements * element_size) <= 0 ->
     calculate_buffer_size num_elements element_size = Indeterminate).
Proof.
  intros _ _. unfold calculate_buffer_size. cbv zeta.
  destruct (Z.ltb_spec 0 (wrap32 (num_elements * element_size))); split;
    intros; (reflexivity || lia).
Qed.

Lemma calculate_buffer_size_wrapped_witness :
  in_int 65537 /\ in_int 65537 /\ 0 < wrap32 (65537 * 65537)
  /\ calculate_buffer_size 65537 65537 = Int 131073.
Proof.
  assert (Hr : in_int 65537) by (unfold in_int, int_min, int_max; lia).
  assert (Hp : 0 < wrap32 (65537 * 65537)) by reflexivity.
  split; [exact Hr|]. split; [exact Hr|]. split; [exact Hp|].
  exact (proj1 (calculate_buffer_size_wrapped 65537 65537 Hr Hr) Hp).
Defined.

(** Products that leave the 32-bit range and land on a value that is
    not positive: no value is returned for them. *)
Example calculate_buffer_size_overflow_zero :
  calculate_buffer_size 65536 65536 = Indeterminate.
Proof. reflexivity. Qed.

Example calculate_buffer_size_overflow_negative :
  calculate_buffer_size 65536 32768 = Indeterminate.
Proof. reflexivity. Qed.

(** In range, the product itself is returned. *)
Lemma calculate_buffer_size_exact (n e : Z) :
  in_int (n * e) -> 0 < n * e -> calculate_buffer_size n e = Int (n * e).
Proof.
  intros Hr Hp. unfold calculate_buffer_size. cbv zeta.
  rewrite (wrap32_id _ Hr).
  destruct (Z.ltb_spec 0 (n * e)); [reflexivity | lia].
Qed.

(** ** Byte memory *)

Lemma store_bytes_outside (bs : list byte) :
  forall (p a : Z) (m : gmap Z byte),
    a < p \/ p + Z.of_nat (length bs) <= a ->
    store_bytes p bs m !! a = m !! a.
Proof.
  induction bs as [|b bs IH]; intros p a m H; simpl in *; [reflexivity|].
  rewrite IH by lia. apply lookup_insert_ne. lia.
Qed.

Lemma store_bytes_inside (bs : list byte) :
  forall (p : Z) (m : gmap Z byte) (i : nat) (b : byte),
    bs !! i = Some b ->
    store_bytes p bs m !! (p + Z.of_nat i) = Some b.
Proof.
  induction bs as [|b0 bs IH]; intros p m i b H; [discriminate|].
  destruct i as [|i]; cbn [store_bytes]; simpl in H.
  - inversion H; subst. rewrite store_bytes_outside by lia.
    replace (p + Z.of_nat 0) with p by lia. apply lookup_insert_eq.
  - replace (p + Z.of_nat (S i)) with (p + 1 + Z.of_nat i) by lia.
    now apply IH.
Qed.

(** [strcpy] asks nothing about the object at [dst]: every offset up
    to the length of the source is written. *)
Lemma strcpy_writes (dst : Z) (src : list byte) (s : state) (i : nat) :
  (i <= length src)%nat ->
  is_Some (mem (strcpy dst src s) !! (dst + Z.of_nat i)).
Proof.
  intros Hi. unfold strcpy. simpl.
  destruct ((src ++ [x00]) !! i) as [b|] eqn:E.
  - rewrite (store_bytes_inside _ _ _ _ _ E). eauto.
  - apply lookup_ge_None in E. rewrite length_app in E. simpl in E. lia.
Qed.

(** ** Heap accounting *)

Lemma initial_state_wf (input : list byte) : heap_wf (initial_state input).
Proof. intros p b H. simpl in H. rewrite lookup_empty in H. discriminate. Qed.

Lemma allocate_fresh (k : alloc_kind) (n : Z) (s : state) :
  heap_wf s -> blocks s !! (allocate k n s).1 = None.
Proof.
  intros Hwf. simpl. destruct (blocks s !! brk s) as [b|] eqn:E; [|reflexivity].
  apply Hwf in E. lia.
Qed.

Lemma allocate_wf (k : alloc_kind) (n : Z) (s : state) :
  heap_wf s -> heap_wf (allocate k n s).2.
Proof.
  intros Hwf p b. simpl. rewrite lookup_insert. case_decide.
  - intros _. lia.
  - intros H'. apply Hwf in H'. lia.
Qed.

Lemma allocate_size (k : alloc_kind) (n : Z) (s : state) :
  heap_wf s -> size (blocks (allocate k n s).2) = S (size (blocks s)).
Proof.
  intros Hwf. simpl. apply map_size_insert_None.
  exact (allocate_fresh k n s Hwf).
Qed.

Lemma allocate_keeps (k : alloc_kind) (n : Z) (s : state) (p : Z) (b : block) :
  heap_wf s -> blocks s !! p = Some b -> blocks (allocate k n s).2 !! p = Some b.
Proof.
  intros Hwf H. simpl. rewrite lookup_insert_ne; [exact H|].
  apply Hwf in H. lia.
Qed.

(** ** [BadResourceManager] *)

(** C2: what construction followed by destruction leaves behind.  The
    buffer obtained by the constructor is still a live block and the
    stream it opened is still open once the destructor has run. *)
Theorem BadResourceManager_ctor_dtor_keeps_resources (s : state) :
  let r := (BadResourceManager.ctor s).1 in
  let s2 := BadResourceManager.dtor r (BadResourceManager.ctor s).2 in
  blocks s2 !! BadResourceManager.data r = Some (Block ByNewArray 1024)
  /\ files s2 !! BadResourceManager.file_handle r = Some ("/data/temp.txt", "w")%string.
Proof.
  simpl. split; apply lookup_insert_eq.
Qed.

(** The accounting does not come back to where it was: one more block
    and one more stream than before. *)
Lemma BadResourceManager_ctor_dtor_accounting (s : state) :
  heap_wf s -> files s !! next_file s = None ->
  let r := (BadResourceManager.ctor s).1 in
  let s2 := BadResourceManager.dtor r (BadResourceManager.ctor s).2 in
  size (blocks s2) = S (size (blocks s)) /\ size (files s2) = S (size (files s)).
Proof.
  intros Hwf Hf. simpl. split.
  - apply map_size_insert_None. exact (allocate_fresh ByNewArray 1024 s Hwf).
  - apply map_size_insert_None. exact Hf.
Qed.

(** The destructor is the identity, hence harmless when repeated. *)
Lemma BadResourceManager_dtor_idempotent (r : BadResourceManager.t) (s : state) :
  BadResourceManager.dtor r (BadResourceManager.dtor r s) = BadResourceManager.dtor r s.
Proof. reflexivity. Qed.

(** C3: what the copy constructor builds.  The copy holds the very
    pointers of its source and nothing is allocated or opened, so a
    byte stored through the copy's [data] is the byte then read through
    the source's [data] at the same index. *)
Theorem BadResourceManager_copy_ctor_aliases
    (other : BadResourceManager.t) (s : state) (i : Z) (b : byte) :
  let c := (BadResourceManager.copy_ctor other s).1 in
  let s1 := (BadResourceManager.copy_ctor other s).2 in
  BadResourceManager.data c = BadResourceManager.data other
  /\ BadResourceManager.file_handle c = BadResourceManager.file_handle other
  /\ s1 = s
  /\ load_byte (BadResourceManager.data other + i)
       (store_byte (BadResourceManager.data c + i) b s1) = Some b.
Proof.
  simpl. repeat split. unfold load_byte, store_byte. simpl.
  apply lookup_insert_eq.
Qed.

(** ** [DerivedBadClass] *)

(** C4: what destruction of a [DerivedBadClass] leaves behind.  Through
    its own type or through a pointer to its base, the block obtained
    for [extra_data] is still live afterwards. *)
Theorem DerivedBadClass_destruction_keeps_extra_data (s : state) :
  let d := (DerivedBadClass.ctor s).1 in
  let s1 := (DerivedBadClass.ctor s).2 in
  blocks (DerivedBadClass.dtor d s1) !! DerivedBadClass.extra_data d
    = Some (Block ByMalloc 2048)
  /\ blocks (DerivedBadClass.dtor_via_base d s1) !! DerivedBadClass.extra_data d
    = Some (Block ByMalloc 2048).
Proof.
  simpl. split; apply lookup_insert_eq.
Qed.

(** The two ways of destroying the object do the same. *)
Lemma DerivedBadClass_dtor_paths_agree (d : DerivedBadClass.t) (s : state) :
  DerivedBadClass.dtor d s = DerivedBadClass.dtor_via_base d s.
Proof. reflexivity. Qed.

(** After construction and destruction of a [DerivedBadClass] three
    resources are still held: the base buffer, the base stream and the
    extra block. *)
Lemma DerivedBadClass_leaks_at_start :
  let d := (DerivedBadClass.ctor (initial_state [])).1 in
  let s2 := DerivedBadClass.dtor d (DerivedBadClass.ctor (initial_state [])).2 in
  size (blocks s2) = 2%nat /\ size (files s2) = 1%nat.
Proof. vm_compute. split; reflexivity. Qed.

(** ** [thread_function] *)

Lemma thread_function_ret (arg : Z) (s : state) :
  (thread_function arg s).1 = NULL.
Proof. unfold thread_function. now destruct (g_buffer _ =? NULL). Qed.

Lemma thread_function_counter (arg : Z) (s : state) :
  g_counter (thread_function arg s).2 = wrap32 (g_counter s + 1).
Proof. unfold thread_function. now destruct (g_buffer _ =? NULL). Qed.

Lemma thread_function_g_buffer (arg : Z) (s : state) :
  g_buffer (thread_function arg s).2 = g_buffer s.
Proof. unfold thread_function. now destruct (g_buffer _ =? NULL). Qed.

Lemma thread_function_mem_null (arg : Z) (s : state) :
  g_buffer s = NULL ->
  mem (thread_function arg s).2
  = store_bytes (brk s) (cstr "Some data" ++ [x00]) (mem s).
Proof.
  intros E. unfold thread_function. cbn [g_buffer set_g_counter].
  rewrite E. reflexivity.
Qed.

Lemma thread_function_mem_text (arg : Z) (s : state) :
  g_buffer s <> NULL ->
  mem (thread_function arg s).2
  = store_bytes (brk s) (cstr "Some data" ++ [x00])
      (store_bytes (g_buffer s) (cstr "Thread was here" ++ [x00]) (mem s)).
Proof.
  intros E. unfold thread_function. cbn [g_buffer set_g_counter].
  destruct (Z.eqb_spec (g_buffer s) NULL); [contradiction | reflexivity].
Qed.

(** With [g_buffer] null, no byte outside the fresh [temp] block
    changes. *)
Lemma thread_function_null_frame (arg : Z) (s : state) (a : Z) :
  g_buffer s = NULL ->
  a < brk s \/ brk s + 10 <= a ->
  mem (thread_function arg s).2 !! a = mem s !! a.
Proof.
  intros Hn Ha. rewrite (thread_function_mem_null _ _ Hn).
  apply store_bytes_outside. cbn. lia.
Qed.

Lemma store_bytes_keeps (bs : list byte) :
  forall (p a : Z) (m : gmap Z byte),
    is_Some (m !! a) -> is_Some (store_bytes p bs m !! a).
Proof.
  induction bs as [|b bs IH]; intros p a m H; cbn [store_bytes]; [exact H|].
  apply IH. rewrite lookup_insert. case_decide; eauto.
Qed.

(** With [g_buffer] not null, the sixteen bytes of the text are stored
    from [g_buffer] on, whatever the size of the block found there. *)
Lemma thread_function_text_unchecked (arg : Z) (s : state) (i : nat) :
  g_buffer s <> NULL -> (i <= 15)%nat ->
  is_Some (mem (thread_function arg s).2 !! (g_buffer s + Z.of_nat i)).
Proof.
  intros Hn Hi. rewrite (thread_function_mem_text _ _ Hn).
  apply store_bytes_keeps.
  destruct ((cstr "Thread was here" ++ [x00]) !! i) as [b|] eqn:E.
  - rewrite (store_bytes_inside _ _ _ _ _ E). eauto.
  - apply lookup_ge_None in E. cbn in E. lia.
Qed.

(** The step machine, run alone, is [thread_function]. *)
Lemma worker_steps_thread_function (s : state) :
  run_schedule worker_step (replicate 4 0%nat) ([W_read], s)
  = ([W_done (thread_function NULL s).1], (thread_function NULL s).2).
Proof.
  unfold thread_function. cbn [g_buffer set_g_counter].
  cbn. destruct (g_buffer s =? NULL); reflexivity.
Qed.

Lemma wrap32_add_l (a b : Z) : wrap32 (wrap32 a + b) = wrap32 (a + b).
Proof.
  unfold wrap32.
  replace ((a + 2 ^ 31) mod 2 ^ 32 - 2 ^ 31 + b + 2 ^ 31)
    with ((a + 2 ^ 31) mod 2 ^ 32 + b) by lia.
  rewrite Zplus_mod_idemp_l. f_equal. f_equal. lia.
Qed.

(** A worker never gets stuck: each of its steps brings it one step
    closer to its return, and what it returns is the null pointer. *)
Lemma worker_step_progress (w : worker) (s : state) :
  steps_left (worker_step w s).1 = Nat.pred (steps_left w).
Proof. now destruct w. Qed.

Lemma worker_step_ok (w : worker) (s : state) :
  worker_ok w -> worker_ok (worker_step w s).1.
Proof. destruct w; cbn; auto. Qed.

(** Calls that do not overlap lose nothing. *)
Lemma run_serially_counter (n : nat) :
  forall s, in_int (g_counter s) ->
    g_counter (run_serially n s) = wrap32 (g_counter s + Z.of_nat n).
Proof.
  induction n as [|n IH]; intros s Hs.
  - cbn [run_serially]. rewrite Z.add_0_r. symmetry. now apply wrap32_id.
  - cbn [run_serially]. rewrite IH.
    + rewrite thread_function_counter, wrap32_add_l. f_equal. lia.
    + rewrite thread_function_counter. apply wrap32_range.
Qed.

(** ** Threads under a schedule *)

Section PoolFacts.
Context {T : Type} (step : T -> state -> T * state).

Lemma sched_step_middle (before after : list T) (t : T) (s : state) :
  sched_step step (before ++ t :: after, s) (length before)
  = (before ++ (step t s).1 :: after, (step t s).2).
Proof.
  unfold sched_step. cbn [fst snd].
  rewrite list_lookup_middle by reflexivity.
  destruct (step t s) as [t' s'] eqn:E. cbn [fst snd].
  rewrite insert_app_r_alt by lia.
  now rewrite Nat.sub_diag.
Qed.

Lemma run_schedule_app (a b : list nat) (c : list T * state) :
  run_schedule step (a ++ b) c = run_schedule step b (run_schedule step a c).
Proof. apply foldl_app. Qed.

End PoolFacts.

(** One worker, scheduled four times in a row among others that do
    not move, does what [thread_function] does. *)
Lemma worker_runs_uninterrupted (before after : list worker) (s : state) :
  run_schedule worker_step (replicate 4 (length before))
    (before ++ W_read :: after, s)
  = (before ++ W_done NULL :: after, (thread_function NULL s).2).
Proof.
  unfold run_schedule. cbn [replicate foldl].
  rewrite !sched_step_middle. cbn [worker_step fst snd].
  unfold thread_function. cbn [g_buffer set_g_counter worker_step].
  destruct (g_buffer s =? NULL); reflexivity.
Qed.

Lemma serial_schedule_from (m : nat) :
  forall (finished : list worker) (s : state),
    run_schedule worker_step
      (flat_map (replicate 4) (seq (length finished) m))
      (finished ++ replicate m W_read, s)
    = (finished ++ replicate m (W_done NULL), run_serially m s).
Proof.
  induction m as [|m IH]; intros finished s; [reflexivity|].
  cbn [seq flat_map run_serially].
  change (replicate (S m) W_read) with (W_read :: replicate m W_read).
  change (replicate (S m) (W_done NULL))
    with (W_done NULL :: replicate m (W_done NULL)).
  rewrite run_schedule_app.
  rewrite (worker_runs_uninterrupted finished (replicate m W_read) s).
  specialize (IH (finished ++ [W_done NULL]) (thread_function NULL s).2).
  rewrite length_app, Nat.add_1_r, <- !app_assoc in IH.
  exact IH.
Qed.

(** X7: [n] workers that run one after the other leave [g_counter] at its
    former value plus [n] (reduced to 32 bits), and all have returned. *)
Lemma serial_schedule_counts (n : nat) (s : state) :
  in_int (g_counter s) ->
  let c := run_schedule worker_step (serial_schedule n) (workers n, s) in
  c.1 = replicate n (W_done NULL)
  /\ g_counter c.2 = wrap32 (g_counter s + Z.of_nat n).
Proof.
  intros Hs. cbv zeta. unfold serial_schedule, workers.
  pose proof (serial_schedule_from n [] s) as H.
  cbn [length app] in H. rewrite H. cbn [fst snd].
  split; [reflexivity | now apply run_serially_counter].
Qed.

(** C1: a schedule of two workers that loses an update.  Both read
    [g_counter] before either writes it back: both have returned and
    the counter has gone up by one, not by two. *)
Theorem thread_function_lost_update (s : state) :
  let c := run_schedule worker_step lost_update_schedule (workers 2, s) in
  c.1 = [W_done NULL; W_done NULL]
  /\ g_counter c.2 = wrap32 (g_counter s + 1).
Proof.
  cbv zeta. unfold lost_update_schedule, workers, run_schedule.
  destruct s as [gb gc gm inst bl br me fi nf si so].
  unfold NULL. cbn. unfold NULL. destruct (gb =? 0) eqn:E; cbn; unfold NULL; rewrite ?E; cbn;
    split; reflexivity.
Qed.

(** From the initial state: two workers, counter at [1]. *)
Example lost_update_at_start :
  let c := run_schedule worker_step lost_update_schedule
             (workers 2, initial_state []) in
  forallb worker_finished c.1 = true
  /\ g_counter c.2 = 1
  /\ g_counter c.2 <> g_counter (initial_state []) + 2.
Proof. vm_compute. repeat split; discriminate. Qed.

(** C9: the code at the failing input.  Two workers under
    [lost_update_schedule], cut after its third step: worker 1 is then
    about to write and holds the value it read before worker 0 wrote.
    From there to its return its run leaves [g_counter] exactly where
    it was, so this execution of [thread_function] has incremented
    nothing; and at no step has [g_mutex] been acquired. *)
Theorem thread_function_increment_unguarded (s : state) :
  let c := run_schedule worker_step (take 3 lost_update_schedule) (workers 2, s) in
  let c' := run_schedule worker_step (drop 3 lost_update_schedule) c in
  c.1 !! 1%nat = Some (W_write (g_counter s))
  /\ c'.1 !! 1%nat = Some (W_done NULL)
  /\ g_counter c'.2 = g_counter c.2
  /\ g_mutex c'.2 = g_mutex s.
Proof.
  cbv zeta. unfold lost_update_schedule, workers, run_schedule.
  destruct s as [gb gc gm inst bl br me fi nf si so].
  unfold NULL. cbn. unfold NULL. destruct (gb =? 0) eqn:E; cbn; unfold NULL;
    rewrite ?E; cbn; repeat split; reflexivity.
Qed.

(** ** Copies into fixed storage *)

(** [unsafe_string_operation] stores past [local_buffer] as soon as
    its argument has 64 characters or more, whatever the state. *)
Lemma unsafe_string_operation_strcpy_overruns
    (local_buffer : Z) (input : list byte) (s : state) :
  (Z.to_nat local_buffer_size <= length input)%nat ->
  is_Some (mem (strcpy local_buffer input s)
             !! (local_buffer + local_buffer_size)).
Proof.
  intros H.
  replace local_buffer_size with (Z.of_nat (Z.to_nat local_buffer_size))
    by reflexivity.
  now apply strcpy_writes.
Qed.

(** C6: the two copies into storage of fixed size, evaluated.
    (1) [g_buffer] points to a block of 8 bytes holding ["abc"]:
    [thread_function] returns normally, the text found at [g_buffer]
    is no longer ["abc"], and the byte at offset 8, one past the block,
    has been written.
    (2) [unsafe_string_operation] on the argument [main] gives it:
    the byte at offset 64 of [local_buffer], one past the array, has
    been written, and so has every byte up to offset 76. *)
Theorem copies_ignore_capacity :
  (let s := small_shared_text in
   let s' := (thread_function NULL s).2 in
   blocks s !! g_buffer s = Some (Block ByMalloc 8)
   /\ load_cstr (mem s) (g_buffer s) = Some (cstr "abc")
   /\ (thread_function NULL s).1 = NULL
   /\ load_byte (g_buffer s) s' = Some "T"%byte
   /\ load_byte (g_buffer s + 8) s = None
   /\ load_byte (g_buffer s + 8) s' = Some "S"%byte
   /\ load_cstr (mem s') (g_buffer s) = Some (cstr "Thread wSome data"))
  /\ (length long_input = 69%nat
      /\ load_byte (1000 + local_buffer_size) (initial_state []) = None
      /\ match unsafe_string_operation 1000 long_input (initial_state []) with
         | Some s2 =>
             load_byte (1000 + local_buffer_size) s2 = Some "r"%byte
             /\ load_byte (1000 + 76) s2 = Some x00
         | None => False
         end).
Proof.
  split; vm_compute; repeat split; reflexivity.
Qed.

(** ** [BadSingleton] *)

Lemma getInstance_first (s : state) :
  instance s = NULL ->
  (BadSingleton.getInstance s).1 = brk s
  /\ instance (BadSingleton.getInstance s).2 = brk s
  /\ blocks (BadSingleton.getInstance s).2 !! brk s
     = Some (Block ByNew sizeof_BadSingleton).
Proof.
  intros E. unfold BadSingleton.getInstance. rewrite E. cbn.
  repeat split.
  rewrite lookup_insert_ne by (unfold sizeof_BadSingleton; lia).
  apply lookup_insert_eq.
Qed.

Lemma getInstance_again (s : state) :
  instance s <> NULL -> BadSingleton.getInstance s = (instance s, s).
Proof.
  intros E. unfold BadSingleton.getInstance.
  destruct (Z.eqb_spec (instance s) NULL); [contradiction | reflexivity].
Qed.

(** X9: Calls that follow one another return one and the same object. *)
Lemma getInstance_twice (s : state) :
  brk s <> NULL ->
  let r1 := BadSingleton.getInstance s in
  BadSingleton.getInstance r1.2 = (r1.1, r1.2).
Proof.
  intros Hb. cbv zeta.
  destruct (Z.eqb_spec (instance s) NULL) as [E|E].
  - destruct (getInstance_first s E) as (H1 & H2 & _).
    rewrite getInstance_again by congruence. now rewrite H1, H2.
  - rewrite (getInstance_again s E). cbn [fst snd].
    now apply getInstance_again.
Qed.

(** The step machine, run alone, is [getInstance]. *)
Lemma caller_steps_getInstance (s : state) :
  run_schedule BadSingleton.caller_step (replicate 3 0%nat)
    ([BadSingleton.G_test], s)
  = ([BadSingleton.G_done (BadSingleton.getInstance s).1],
     (BadSingleton.getInstance s).2).
Proof.
  unfold BadSingleton.getInstance.
  destruct s as [gb gc gm inst bl br me fi nf si so].
  cbn. destruct (inst =? NULL); reflexivity.
Qed.

(** Two first calls that both test [instance] before either stores
    into it: each builds an object of its own and the two callers get
    different pointers, whatever the state they start from. *)
Lemma racing_first_calls_differ (s : state) :
  instance s = NULL -> brk s <> NULL ->
  let c := run_schedule BadSingleton.caller_step racing_first_calls
             ([BadSingleton.G_test; BadSingleton.G_test], s) in
  exists p q,
    c.1 = [BadSingleton.G_done p; BadSingleton.G_done q]
    /\ p <> q
    /\ blocks c.2 !! p = Some (Block ByNew sizeof_BadSingleton)
    /\ blocks c.2 !! q = Some (Block ByNew sizeof_BadSingleton).
Proof.
  intros E Hb. cbv zeta.
  destruct s as [gb gc gm inst bl br me fi nf si so]. cbn in E, Hb. subst inst.
  cbn. destruct (Z.eqb_spec br NULL) as [|_]; [contradiction|]. cbn.
  unfold sizeof_BadSingleton, sizeof_int, NULL in *.
  change (8 `max` 1) with 8. change ((1000 * 4) `max` 1) with 4000.
  exists br, (br + 8 + 4000). split; [reflexivity|]. split; [lia|]. split.
  - rewrite !lookup_insert_ne by lia. apply lookup_insert_eq.
  - rewrite lookup_insert_ne by lia. apply lookup_insert_eq.
Qed.

(** C7: two first calls of [getInstance] from two threads, evaluated
    from the initial state under [racing_first_calls]: both calls have
    returned, with different pointers, and the heap holds two
    [BadSingleton] objects where it held none. *)
Theorem getInstance_racing_constructs_twice :
  let c := run_schedule BadSingleton.caller_step racing_first_calls
             ([BadSingleton.G_test; BadSingleton.G_test], initial_state []) in
  c.1 = [BadSingleton.G_done 4096; BadSingleton.G_done 8104]
  /\ BadSingleton.constructed (initial_state []) = 0%nat
  /\ BadSingleton.constructed c.2 = 2%nat.
Proof. vm_compute. repeat split; reflexivity. Qed.

(** [delete] of the object leaves the static pointer as it was. *)
Lemma delete_keeps_instance (p : Z) (s : state) :
  instance (BadSingleton.delete_ p s) = instance s.
Proof. reflexivity. Qed.

(** C8: the code at the failing input.  The class has no shutdown and
    never deletes its instance; its public destructor lets any caller
    write [delete] on it.  After a first call and that [delete], the
    object's storage is gone while [instance] is as it was, and the
    next call of [getInstance] does not fail: it returns the former,
    non-null pointer, which points to no live object. *)
Lemma getInstance_after_delete_still_returns :
  let p := (BadSingleton.getInstance (initial_state [])).1 in
  let s1 := (BadSingleton.getInstance (initial_state [])).2 in
  let s2 := BadSingleton.delete_ p s1 in
  blocks s1 !! p = Some (Block ByNew sizeof_BadSingleton)
  /\ blocks s2 !! p = None
  /\ (BadSingleton.getInstance s2).1 = p
  /\ p <> NULL.
Proof. vm_compute. repeat split; discriminate. Qed.

(** ** [main] *)

Lemma worker_step_g_mutex (w : worker) (s : state) :
  g_mutex (worker_step w s).2 = g_mutex s.
Proof.
  destruct w; cbn; try reflexivity. now destruct (g_buffer s =? NULL).
Qed.

Lemma sched_step_g_mutex (c : list worker * state) (i : nat) :
  g_mutex (sched_step worker_step c i).2 = g_mutex c.2.
Proof.
  unfold sched_step. destruct (c.1 !! i) as [w|]; [|reflexivity].
  pose proof (worker_step_g_mutex w c.2) as H.
  destruct (worker_step w c.2). exact H.
Qed.

(** Nothing initialises [g_mutex]: it is in its initial condition in
    every configuration the program reaches. *)
Lemma reachable_g_mutex (argv : list (list byte)) (input : list byte) (c : config) :
  reachable argv input c -> g_mutex (st c) = MutexUninit.
Proof.
  induction 1 as [|a c c' Hr IH Hs]; [reflexivity|].
  destruct a as [|i]; cbn in Hs.
  - unfold main_step in Hs.
    destruct (pc c); cbn in Hs;
      unfold pthread_mutex_lock, pthread_mutex_unlock in Hs;
      try rewrite IH in Hs;
      try (destruct (argv !! 1%nat)); try discriminate;
      inversion Hs; subst; cbn; first [exact IH | reflexivity].
  - pose proof (sched_step_g_mutex (pool c, st c) i) as H.
    destruct (sched_step worker_step (pool c, st c) i) as [p s].
    inversion Hs; subst. cbn in *. congruence.
Qed.

(** Whenever [main] arrives at its [pthread_mutex_lock], the call has
    no defined behaviour. *)
Lemma reachable_lock_undefined (argv : list (list byte)) (input : list byte) (c : config) :
  reachable argv input c -> pc c = M_lock -> system_step argv Main c = Undefined.
Proof.
  intros Hr Hpc. cbn. unfold main_step, pthread_mutex_lock.
  now rewrite Hpc, (reachable_g_mutex _ _ _ Hr).
Qed.

(** C5: [main] run from the initial state with one argument.  After
    its first five statements it stands at [pthread_mutex_lock] with
    two threads created and [g_mutex] never initialised, and the lock
    step has no defined behaviour. *)
Theorem main_locks_uninitialised_mutex :
  match run_system argv_one [Main; Main; Main; Main; Main] (initial_config []) with
  | Steps c =>
      pc c = M_lock
      /\ pool c = [W_read; W_read]
      /\ g_mutex (st c) = MutexUninit
      /\ system_step argv_one Main c = Undefined
  | _ => False
  end.
Proof. vm_compute. repeat split; reflexivity. Qed.

(** * More of the translation unit *)

(** ** C strings in memory *)

Lemma keys_size (n : nat) :
  forall (m : gmap Z byte) (p : Z),
    (forall i, (i < n)%nat -> is_Some (m !! (p + Z.of_nat i))) ->
    (n <= size m)%nat.
Proof.
  induction n as [|n IH]; intros m p H; [lia|].
  assert (Hk : is_Some (m !! (p + Z.of_nat n))) by (apply H; lia).
  pose proof (map_size_ne_0_lookup_2 m _ Hk) as Hne.
  pose proof (map_size_delete_Some (p + Z.of_nat n) m Hk) as Hd.
  assert (Hle : (n <= size (delete (p + Z.of_nat n)%Z m))%nat).
  { apply (IH _ p). intros i Hi.
    rewrite lookup_delete_ne by lia. apply H. lia. }
  lia.
Qed.

Lemma strlen_from_stored (t : list byte) :
  forall (p : Z) (m : gmap Z byte) (fuel : nat),
    nul_free t ->
    (forall i b, (t ++ [x00]) !! i = Some b -> m !! (p + Z.of_nat i) = Some b) ->
    (length t < fuel)%nat ->
    strlen_from fuel m p = Some (Z.of_nat (length t)).
Proof.
  induction t as [|b t IH]; intros p m fuel Hn Hm Hf;
    (destruct fuel as [|fuel]; [cbn in Hf; lia|]); cbn [strlen_from].
  - pose proof (Hm 0%nat x00 eq_refl) as H0.
    replace (p + Z.of_nat 0) with p in H0 by lia. now rewrite H0.
  - pose proof (Hm 0%nat b eq_refl) as H0.
    replace (p + Z.of_nat 0) with p in H0 by lia. rewrite H0.
    inversion Hn as [|? ? Hb Ht]; subst.
    destruct (Byte.eqb b x00) eqn:E; [apply byte_dec_bl in E; contradiction|].
    rewrite (IH (p + 1) m fuel Ht).
    + cbn [option_map length]. f_equal. lia.
    + intros i c Hi. specialize (Hm (S i) c Hi).
      replace (p + 1 + Z.of_nat i) with (p + Z.of_nat (S i)) by lia. exact Hm.
    + cbn in Hf. lia.
Qed.

Lemma load_bytes_stored (t : list byte) :
  forall (p : Z) (m : gmap Z byte),
    (forall i b, t !! i = Some b -> m !! (p + Z.of_nat i) = Some b) ->
    load_bytes (length t) m p = t.
Proof.
  induction t as [|b t IH]; intros p m Hm; [reflexivity|].
  cbn [length load_bytes].
  pose proof (Hm 0%nat b eq_refl) as H0.
  replace (p + Z.of_nat 0) with p in H0 by lia. rewrite H0.
  f_equal. apply IH. intros i c Hi. specialize (Hm (S i) c Hi).
  replace (p + 1 + Z.of_nat i) with (p + Z.of_nat (S i)) by lia. exact Hm.
Qed.

(** A string stored with its NUL is the string then found there. *)
Lemma strlen_stored (t : list byte) (p : Z) (m : gmap Z byte) :
  nul_free t ->
  (forall i b, (t ++ [x00]) !! i = Some b -> m !! (p + Z.of_nat i) = Some b) ->
  strlen m p = Some (Z.of_nat (length t)).
Proof.
  intros Hn Hm. unfold strlen. apply strlen_from_stored; [exact Hn|exact Hm|].
  assert (S (length t) <= size m)%nat; [|lia].
  apply (keys_size _ m p). intros i Hi.
  destruct ((t ++ [x00]) !! i) as [b|] eqn:E.
  - rewrite (Hm _ _ E). eauto.
  - apply lookup_ge_None in E. rewrite length_app in E. cbn in E. lia.
Qed.

Lemma load_cstr_stored (t : list byte) (p : Z) (m : gmap Z byte) :
  nul_free t ->
  (forall i b, (t ++ [x00]) !! i = Some b -> m !! (p + Z.of_nat i) = Some b) ->
  load_cstr m p = Some t.
Proof.
  intros Hn Hm. unfold load_cstr. rewrite (strlen_stored t p m Hn Hm).
  cbn [option_map]. rewrite Nat2Z.id. f_equal.
  apply load_bytes_stored. intros i b Hi. apply Hm.
  now apply lookup_app_l_Some.
Qed.

Lemma load_cstr_strcpy (t : list byte) (p : Z) (s : state) :
  nul_free t -> load_cstr (mem (strcpy p t s)) p = Some t.
Proof.
  intros Hn. apply load_cstr_stored; [exact Hn|].
  intros i b Hi. cbn. now apply store_bytes_inside.
Qed.

Lemma strcpy_outside (dst : Z) (src : list byte) (s : state) (a : Z) :
  a < dst \/ dst + Z.of_nat (length src) + 1 <= a ->
  mem (strcpy dst src s) !! a = mem s !! a.
Proof.
  intros H. cbn. apply store_bytes_outside. rewrite length_app. cbn. lia.
Qed.

Lemma nul_free_app (a b : list byte) :
  nul_free a -> nul_free b -> nul_free (a ++ b).
Proof. intros Ha Hb. apply Forall_app. now split. Qed.

Lemma store_bytes_app (a b : list byte) :
  forall (p : Z) (m : gmap Z byte),
    store_bytes p (a ++ b) m
    = store_bytes (p + Z.of_nat (length a)) b (store_bytes p a m).
Proof.
  induction a as [|x a IH]; intros p m.
  - cbn. f_equal. lia.
  - cbn [app store_bytes length]. rewrite IH. f_equal. lia.
Qed.

(** [strcat] after [strcpy] leaves the concatenation. *)
Lemma strcat_strcpy (p : Z) (t u : list byte) (s : state) :
  nul_free t ->
  strcat p u (strcpy p t s) = Some (strcpy p (t ++ u) s).
Proof.
  intros Hn. unfold strcat.
  rewrite (strlen_stored t p (mem (strcpy p t s)) Hn)
    by (intros i b Hi; cbn; now apply store_bytes_inside).
  f_equal. unfold strcpy, set_mem. cbn. f_equal.
  rewrite <- (app_assoc t u [x00]).
  rewrite (store_bytes_app t [x00]), (store_bytes_app t (u ++ [x00])).
  cbn [store_bytes].
  destruct u as [|c u]; cbn [app store_bytes]; now rewrite insert_insert_eq.
Qed.

(** ** [unsafe_string_operation], for every argument *)

Lemma gets_mem (dst : Z) (s : state) :
  mem (gets dst s)
  = match stdin s with
    | [] => mem s
    | _ :: _ => store_bytes dst ((read_line (stdin s)).1 ++ [x00]) (mem s)
    end.
Proof.
  unfold gets. destruct (stdin s) as [|b r] eqn:E; [reflexivity|].
  destruct (read_line (b :: r)) as [l rest]. reflexivity.
Qed.


Lemma gets_stdout (dst : Z) (s : state) : stdout (gets dst s) = stdout s.
Proof.
  unfold gets. destruct (stdin s) as [|b r]; [reflexivity|].
  destruct (read_line (b :: r)) as [l rest]. reflexivity.
Qed.

Lemma unsafe_string_operation_runs (local_buffer : Z) (input : list byte) (s : state) :
  nul_free input -> nul_free (read_line (stdin s)).1 ->
  unsafe_string_operation local_buffer input s
  = Some (set_stdout (stdout s ++ cstr "Result: "
                        ++ printed_text input (stdin s) ++ [newline])
            (gets local_buffer (strcpy local_buffer (input ++ cstr "_suffix") s))).
Proof.
  intros Hi Hl. unfold unsafe_string_operation. cbv zeta.
  rewrite (strcat_strcpy _ _ _ _ Hi).
  set (s2 := strcpy local_buffer (input ++ cstr "_suffix") s).
  unfold printf_result.
  assert (Hs : stdin s2 = stdin s) by reflexivity.
  assert (Ht : load_cstr (mem (gets local_buffer s2)) local_buffer
               = Some (printed_text input (stdin s))).
  { rewrite gets_mem, Hs. unfold printed_text.
    destruct (stdin s) as [|b r] eqn:E.
    - apply load_cstr_strcpy. apply nul_free_app; [exact Hi|].
      repeat constructor; discriminate.
    - apply load_cstr_stored; [exact Hl|].
      intros i c Hc. now apply store_bytes_inside. }
  rewrite Ht, gets_stdout. reflexivity.
Qed.

Ltac nul_free_tac := unfold nul_free; cbn; repeat constructor; discriminate.



(** X14: The call stays inside [local_buffer] when the argument has at most
    56 characters and the line read at most 63: no byte outside the 64
    of the array changes, and the heap is as before. *)
Theorem unsafe_string_operation_within_bounds
    (local_buffer : Z) (input : list byte) (s : state) :
  nul_free input -> nul_free (read_line (stdin s)).1 ->
  Z.of_nat (length input) + 8 <= local_buffer_size ->
  Z.of_nat (length (read_line (stdin s)).1) + 1 <= local_buffer_size ->
  exists s',
    unsafe_string_operation local_buffer input s = Some s'
    /\ (forall a, a < local_buffer \/ local_buffer + local_buffer_size <= a ->
                  mem s' !! a = mem s !! a)
    /\ blocks s' = blocks s.
Proof.
  intros Hi Hl HlenI Hlen. eexists.
  split; [now apply unsafe_string_operation_runs|].
  split; [|unfold gets; destruct (stdin _); [reflexivity|];
           destruct (read_line _); reflexivity].
  intros a Ha. cbn [mem set_stdout]. rewrite gets_mem.
  cbn [stdin strcpy set_mem mem].
  assert (Hin : store_bytes local_buffer ((input ++ cstr "_suffix") ++ [x00]) (mem s) !! a
                = mem s !! a).
  { apply store_bytes_outside. rewrite !length_app. cbn [length cstr].
    unfold local_buffer_size in *. cbn. lia. }
  destruct (stdin s) as [|b r]; [exact Hin|].
  rewrite store_bytes_outside; [exact Hin|].
  rewrite length_app. cbn [length]. unfold local_buffer_size in *. lia.
Qed.

Lemma unsafe_string_operation_within_bounds_witness :
  exists s',
    unsafe_string_operation 1000 (cstr "ab") (initial_state (cstr "xy")) = Some s'
    /\ (forall a, a < 1000 \/ 1000 + local_buffer_size <= a ->
                  mem s' !! a = mem (initial_state (cstr "xy")) !! a)
    /\ blocks s' = blocks (initial_state (cstr "xy")).
Proof.
  refine (unsafe_string_operation_within_bounds 1000 (cstr "ab")
            (initial_state (cstr "xy")) _ _ _ _);
    first [nul_free_tac | vm_compute; discriminate].
Defined.

(** X15: The call overruns [local_buffer] as soon as the argument has 57
    characters: the byte one past the array then holds a byte of the
    argument, of the suffix or their NUL (the line read being short
    enough not to reach it). *)
Theorem unsafe_string_operation_overruns
    (local_buffer : Z) (input : list byte) (s : state) :
  nul_free input -> nul_free (read_line (stdin s)).1 ->
  local_buffer_size <= Z.of_nat (length input) + 7 ->
  Z.of_nat (length (read_line (stdin s)).1) + 1 <= local_buffer_size ->
  exists s' b,
    unsafe_string_operation local_buffer input s = Some s'
    /\ ((input ++ cstr "_suffix") ++ [x00]) !! 64%nat = Some b
    /\ mem s' !! (local_buffer + local_buffer_size) = Some b.
Proof.
  intros Hi Hl Hlen Hline.
  destruct (((input ++ cstr "_suffix") ++ [x00]) !! 64%nat) as [b|] eqn:E.
  2:{ apply lookup_ge_None in E. rewrite !length_app in E. cbn in E.
      unfold local_buffer_size in Hlen. lia. }
  eexists. exists b. split; [now apply unsafe_string_operation_runs|].
  split; [reflexivity|].
  cbn [mem set_stdout]. rewrite gets_mem. cbn [stdin strcpy set_mem mem].
  assert (Hin : store_bytes local_buffer ((input ++ cstr "_suffix") ++ [x00]) (mem s)
                  !! (local_buffer + local_buffer_size) = Some b).
  { change local_buffer_size with (Z.of_nat 64).
    now apply store_bytes_inside. }
  destruct (stdin s) as [|c r]; [exact Hin|].
  rewrite store_bytes_outside; [exact Hin|].
  rewrite length_app. cbn [length]. unfold local_buffer_size in *. lia.
Qed.

Lemma unsafe_string_operation_overruns_witness :
  exists s' b,
    unsafe_string_operation 1000 long_input (initial_state []) = Some s'
    /\ ((long_input ++ cstr "_suffix") ++ [x00]) !! 64%nat = Some b
    /\ mem s' !! (1000 + local_buffer_size) = Some b.
Proof.
  refine (unsafe_string_operation_overruns 1000 long_input (initial_state []) _ _ _ _);
    first [nul_free_tac | vm_compute; discriminate].
Defined.

(** ** [processString] *)

Lemma processed_nul_free (input : list byte) :
  nul_free input -> nul_free (processed_prefix ++ input ++ processed_suffix).
Proof.
  intros H. apply nul_free_app; [nul_free_tac|].
  apply nul_free_app; [exact H | nul_free_tac].
Qed.

(** X16: For an argument of at most 45 bytes, the Java string returned
    is ["Processed: "], the argument and the fixed suffix; the native
    string obtained for the argument is still held when the function
    returns. *)
Theorem processString_result
    (result : Z) (input : list byte) (env : jni_env) (s : state) :
  nul_free input ->
  Z.of_nat (length input) <= 45 ->
  (processString result input env s).1.1
    = Some (processed_prefix ++ input ++ processed_suffix)
  /\ utf_chars_held (processString result input env s).1.2
     = S (utf_chars_held env).
Proof.
  intros H _. unfold processString, GetStringUTFChars, NewStringUTF. cbn [fst snd].
  split; [|reflexivity]. apply load_cstr_strcpy. now apply processed_nul_free.
Qed.

Lemma processString_result_witness :
  (processString 1000 (cstr "abc") (JniEnv 0) (initial_state [])).1.1
    = Some (cstr "Processed: abc with extra long suffix that might overflow")
  /\ utf_chars_held (processString 1000 (cstr "abc") (JniEnv 0) (initial_state [])).1.2
     = 1%nat.
Proof.
  refine (processString_result 1000 (cstr "abc") (JniEnv 0) (initial_state []) _ _).
  - nul_free_tac.
  - vm_compute. discriminate.
Defined.

(** X17: With an argument of at most 45 bytes the function stays inside
    [result]: no byte outside the 100 of the array changes. *)
Theorem processString_within_bounds
    (result : Z) (input : list byte) (env : jni_env) (s : state) (a : Z) :
  Z.of_nat (length input) <= 45 ->
  a < result \/ result + result_size <= a ->
  mem (processString result input env s).2 !! a = mem s !! a.
Proof.
  intros Hlen Ha. unfold processString, GetStringUTFChars. cbn [snd].
  apply strcpy_outside. rewrite !length_app.
  change (length processed_prefix) with 11%nat.
  change (length processed_suffix) with 43%nat.
  unfold result_size in Ha. lia.
Qed.

Lemma processString_within_bounds_witness :
  mem (processString 1000 (cstr "abc") (JniEnv 0) (initial_state [])).2 !! 1100
  = mem (initial_state []) !! 1100.
Proof.
  refine (processString_within_bounds 1000 (cstr "abc") (JniEnv 0)
            (initial_state []) 1100 _ _).
  - vm_compute; discriminate.
  - right. vm_compute; discriminate.
Defined.

(** X18: With 46 bytes or more it overruns [result]: the byte one past the
    array is overwritten with a byte of the formatted text or its
    NUL. *)
Theorem processString_overruns
    (result : Z) (input : list byte) (env : jni_env) (s : state) :
  46 <= Z.of_nat (length input) ->
  exists b,
    ((processed_prefix ++ input ++ processed_suffix) ++ [x00]) !! 100%nat = Some b
    /\ mem (processString result input env s).2 !! (result + result_size) = Some b.
Proof.
  intros Hlen.
  destruct (((processed_prefix ++ input ++ processed_suffix) ++ [x00]) !! 100%nat)
    as [b|] eqn:E.
  2:{ apply lookup_ge_None in E. rewrite !length_app in E.
      change (length processed_prefix) with 11%nat in E.
      change (length processed_suffix) with 43%nat in E. cbn in E. lia. }
  exists b. split; [reflexivity|].
  unfold processString, GetStringUTFChars. cbn [snd strcpy set_mem mem].
  change result_size with (Z.of_nat 100). now apply store_bytes_inside.
Qed.

Lemma processString_overruns_witness :
  exists b,
    ((processed_prefix ++ long_input ++ processed_suffix) ++ [x00]) !! 100%nat = Some b
    /\ mem (processString 1000 long_input (JniEnv 0) (initial_state [])).2
         !! (1000 + result_size) = Some b.
Proof.
  refine (processString_overruns 1000 long_input (JniEnv 0) (initial_state []) _).
  vm_compute; discriminate.
Defined.

(** ** [fibonacci_bad] *)

Lemma fib_pair_snd (k : nat) : (fib_pair k).2 = fib (S k).
Proof. unfold fib. cbn [fib_pair]. now destruct (fib_pair k). Qed.

Lemma fib_step (k : nat) : fib (S (S k)) = fib k + fib (S k).
Proof.
  rewrite <- (fib_pair_snd (S k)), <- (fib_pair_snd k).
  unfold fib. cbn [fib_pair]. now destruct (fib_pair k).
Qed.

Lemma fib_bounds (k : nat) : 0 <= fib k <= fib (S k) /\ 0 < fib (S k).
Proof.
  induction k as [|k IH]; [cbn; lia|].
  rewrite fib_step. lia.
Qed.

Lemma fib_mono (j k : nat) : (j <= k)%nat -> fib j <= fib k.
Proof.
  induction 1 as [|k _ IH]; [lia|]. pose proof (fib_bounds k). lia.
Qed.

Lemma wrap32_add (a b : Z) : wrap32 (wrap32 a + wrap32 b) = wrap32 (a + b).
Proof.
  rewrite wrap32_add_l, (Z.add_comm a), wrap32_add_l. f_equal. lia.
Qed.

Lemma fibonacci_value_wrap (n : Z) :
  0 <= n -> fibonacci_value n = wrap32 (fib (Z.to_nat n)).
Proof.
  intros H. unfold fibonacci_value. destruct (Z.leb_spec n 1); [|reflexivity].
  assert (n = 0 \/ n = 1) as [->| ->] by lia; reflexivity.
Qed.

Lemma fibonacci_bad_returns (depth : nat) :
  forall n, (frames n <= depth)%nat ->
    fibonacci_bad depth n = Some (fibonacci_value n).
Proof.
  induction depth as [|depth IH]; intros n Hd.
  - unfold frames in Hd. lia.
  - cbn [fibonacci_bad]. unfold fibonacci_value at 1.
    destruct (Z.leb_spec n 1) as [Hn|Hn].
    + unfold fibonacci_value. destruct (Z.leb_spec n 1); [reflexivity|lia].
    + unfold frames in Hd.
      rewrite (IH (n - 1)) by (unfold frames; lia).
      rewrite (IH (n - 2)) by (unfold frames; lia).
      rewrite !fibonacci_value_wrap by lia.
      unfold fibonacci_value. destruct (Z.leb_spec n 1); [lia|].
      rewrite wrap32_add. do 2 f_equal.
      replace (Z.to_nat n) with (S (S (Z.to_nat (n - 2)))) by lia.
      replace (Z.to_nat (n - 1)) with (S (Z.to_nat (n - 2))) by lia.
      rewrite fib_step. lia.
Qed.

Lemma fibonacci_bad_too_deep (depth : nat) :
  forall n, (depth < frames n)%nat -> fibonacci_bad depth n = None.
Proof.
  induction depth as [|depth IH]; intros n Hd; [reflexivity|].
  cbn [fibonacci_bad]. unfold frames in Hd.
  destruct (Z.leb_spec n 1) as [Hn|Hn]; [lia|].
  rewrite (IH (n - 1)) by (unfold frames; lia). reflexivity.
Qed.

(** X1: [fibonacci_bad] returns its argument unchanged for every [n <= 1],
    negative ones included, and for larger [n] the [n]-th Fibonacci
    number reduced to 32 bits, provided the stack has room for the
    nested calls. *)
Theorem fibonacci_bad_value (depth : nat) (n : Z) :
  (frames n <= depth)%nat ->
  fibonacci_bad depth n
  = Some (if n <=? 1 then n else wrap32 (fib (Z.to_nat n))).
Proof. apply fibonacci_bad_returns. Qed.

Lemma fibonacci_bad_value_witness :
  fibonacci_bad 10 10 = Some 55 /\ fibonacci_bad 1 (-5) = Some (-5).
Proof.
  split.
  - refine (fibonacci_bad_value 10 10 _). unfold frames. lia.
  - refine (fibonacci_bad_value 1 (-5) _). unfold frames. lia.
Defined.

(** X2: The recursion nests exactly [max n 1] calls: a value comes back
    if and only if the stack has room for that many. *)
Theorem fibonacci_bad_depth (depth : nat) (n : Z) :
  is_Some (fibonacci_bad depth n) <-> (frames n <= depth)%nat.
Proof.
  split.
  - intros [v Hv]. destruct (le_lt_dec (frames n) depth) as [H|H]; [exact H|].
    rewrite (fibonacci_bad_too_deep depth n H) in Hv. discriminate.
  - intros H. rewrite (fibonacci_bad_returns depth n H). eauto.
Qed.

Lemma fibonacci_bad_depth_witness :
  is_Some (fibonacci_bad 5 5) /\ ~ is_Some (fibonacci_bad 4 5).
Proof.
  split.
  - refine (proj2 (fibonacci_bad_depth 5 5) _). unfold frames. lia.
  - intros H. apply (proj1 (fibonacci_bad_depth 4 5)) in H.
    unfold frames in H. lia.
Defined.

(** X3: Up to [n = 46] no addition leaves the 32-bit range and the result
    is the Fibonacci number itself, which is not negative. *)
Theorem fibonacci_bad_exact (n : Z) :
  0 <= n <= 46 ->
  fibonacci_bad (frames n) n = Some (fib (Z.to_nat n))
  /\ 0 <= fib (Z.to_nat n) <= int_max.
Proof.
  intros Hn.
  assert (Hb : 0 <= fib (Z.to_nat n) <= int_max).
  { split; [apply fib_bounds|].
    transitivity (fib 46); [apply fib_mono; lia | vm_compute; discriminate]. }
  split; [|exact Hb].
  rewrite (fibonacci_bad_returns (frames n) n (Nat.le_refl _)).
  rewrite fibonacci_value_wrap by lia. f_equal. apply wrap32_id.
  unfold in_int, int_min. lia.
Qed.

Lemma fibonacci_bad_exact_witness :
  fibonacci_bad (frames 12) 12 = Some 144 /\ 0 <= 144 <= int_max.
Proof.
  refine (fibonacci_bad_exact 12 _). lia.
Defined.

(** At [n = 47] the sum overflows and the result is negative. *)
Example fibonacci_bad_47 :
  forall depth, (47 <= depth)%nat -> fibonacci_bad depth 47 = Some (-1323752223).
Proof.
  intros depth H. rewrite (fibonacci_bad_returns depth 47)
    by (change (frames 47) with 47%nat; exact H).
  reflexivity.
Qed.

(** ** [calculate_buffer_size], further *)

(** X4: Whatever its arguments, a value [calculate_buffer_size] returns is
    a positive [int]: never zero, never negative. *)
Theorem calculate_buffer_size_positive (num_elements element_size z : Z) :
  calculate_buffer_size num_elements element_size = Int z ->
  0 < z <= int_max.
Proof.
  unfold calculate_buffer_size. cbv zeta.
  destruct (Z.ltb_spec 0 (wrap32 (num_elements * element_size))) as [H|H];
    [|discriminate].
  intros E. inversion E; subst.
  pose proof (wrap32_range (num_elements * element_size)) as [_ Hr].
  split; [exact H | exact Hr].
Qed.

Lemma calculate_buffer_size_positive_witness : 0 < 131073 <= int_max.
Proof.
  refine (calculate_buffer_size_positive 65537 65537 131073 _). reflexivity.
Defined.

(** X5: When the product of the arguments fits an [int], the function
    returns it if it is positive and returns no value if it is zero or
    negative: a count or a size of zero, or arguments of opposite
    signs. *)
Theorem calculate_buffer_size_in_range (num_elements element_size : Z) :
  in_int (num_elements * element_size) ->
  calculate_buffer_size num_elements element_size
  = if 0 <? num_elements * element_size
    then Int (num_elements * element_size)
    else Indeterminate.
Proof.
  intros H. unfold calculate_buffer_size. cbv zeta. now rewrite (wrap32_id _ H).
Qed.

Lemma calculate_buffer_size_in_range_witness :
  calculate_buffer_size 0 1024 = Indeterminate
  /\ calculate_buffer_size 16 1024 = Int 16384.
Proof.
  split.
  - refine (calculate_buffer_size_in_range 0 1024 _).
    unfold in_int, int_min, int_max. lia.
  - refine (calculate_buffer_size_in_range 16 1024 _).
    unfold in_int, int_min, int_max. lia.
Defined.

(** ** [thread_function]: what it leaves in the heap *)

Lemma thread_function_blocks (arg : Z) (s : state) :
  blocks (thread_function arg s).2 = <[brk s := Block ByMalloc 1000]> (blocks s)
  /\ brk (thread_function arg s).2 = brk s + 1000.
Proof. unfold thread_function. now destruct (g_buffer _ =? NULL). Qed.

Lemma thread_function_wf (arg : Z) (s : state) :
  heap_wf s -> heap_wf (thread_function arg s).2.
Proof.
  intros Hwf p b. destruct (thread_function_blocks arg s) as [Hb Hk].
  rewrite Hb, Hk, lookup_insert. case_decide.
  - intros _. lia.
  - intros H'. apply Hwf in H'. lia.
Qed.

Lemma thread_function_leaks_one (arg : Z) (s : state) :
  heap_wf s ->
  size (blocks (thread_function arg s).2) = S (size (blocks s)).
Proof.
  intros Hwf. destruct (thread_function_blocks arg s) as [Hb _]. rewrite Hb.
  apply map_size_insert_None.
  destruct (blocks s !! brk s) as [b|] eqn:E; [|reflexivity].
  apply Hwf in E. lia.
Qed.

Lemma run_serially_wf (n : nat) :
  forall s, heap_wf s -> heap_wf (run_serially n s).
Proof.
  induction n as [|n IH]; intros s H; [exact H|].
  cbn [run_serially]. apply IH. now apply thread_function_wf.
Qed.

(** X6: Every call of [thread_function] leaves one more block in the heap
    and none is ever given back: after [n] calls the heap holds [n]
    blocks more, and every block that was live still is. *)
Theorem thread_function_leaks (n : nat) (s : state) :
  heap_wf s ->
  size (blocks (run_serially n s)) = (size (blocks s) + n)%nat
  /\ (forall p b, blocks s !! p = Some b ->
                  blocks (run_serially n s) !! p = Some b).
Proof.
  revert s. induction n as [|n IH]; intros s Hwf.
  - cbn [run_serially]. split; [lia | auto].
  - cbn [run_serially].
    destruct (IH _ (thread_function_wf NULL s Hwf)) as [Hs Hk].
    split.
    + rewrite Hs, (thread_function_leaks_one NULL s Hwf). lia.
    + intros p b Hp. apply Hk.
      destruct (thread_function_blocks NULL s) as [Hb _]. rewrite Hb.
      rewrite lookup_insert_ne; [exact Hp|]. apply Hwf in Hp. lia.
Qed.

Lemma thread_function_leaks_witness :
  size (blocks (run_serially 3 (initial_state []))) = 3%nat.
Proof.
  exact (proj1 (thread_function_leaks 3 (initial_state [])
                  (initial_state_wf []))).
Defined.

(** ** [g_counter] under every schedule *)

Lemma count_written_app (a b : list worker) :
  count_written (a ++ b) = (count_written a + count_written b)%nat.
Proof. induction a as [|w a IH]; cbn; [reflexivity | rewrite IH; lia]. Qed.

Lemma count_written_le (p : list worker) : (count_written p <= length p)%nat.
Proof. induction p as [|w p IH]; cbn; [lia | destruct (has_written w); lia]. Qed.

Lemma count_written_replicate_read (n : nat) :
  count_written (replicate n W_read) = 0%nat.
Proof. induction n as [|n IH]; cbn; [reflexivity | exact IH]. Qed.

Lemma count_written_finished (p : list worker) :
  Forall (fun w => worker_finished w = true) p -> count_written p = length p.
Proof.
  induction 1 as [|w p Hw _ IH]; [reflexivity|].
  cbn. rewrite IH. destruct w; cbn in *; congruence.
Qed.

Lemma sched_step_length {T : Type} (step : T -> state -> T * state)
    (c : list T * state) (i : nat) :
  length (sched_step step c i).1 = length c.1.
Proof.
  unfold sched_step. destruct (c.1 !! i) as [t|]; [|reflexivity].
  destruct (step t c.2). cbn [fst]. apply length_insert.
Qed.

Lemma run_schedule_length {T : Type} (step : T -> state -> T * state)
    (sch : list nat) :
  forall c, length (run_schedule step sch c).1 = length c.1.
Proof.
  induction sch as [|i sch IH]; intros c; [reflexivity|].
  cbn. unfold run_schedule in IH. rewrite IH. apply sched_step_length.
Qed.

Lemma worker_step_g_counter (w : worker) (s : state) :
  g_counter (worker_step w s).2
  = match w with W_write tmp => wrap32 (tmp + 1) | _ => g_counter s end.
Proof. destruct w; cbn; try reflexivity. now destruct (g_buffer s =? NULL). Qed.

(** One step of any worker keeps [counter_inv]. *)
Lemma counter_inv_step (c0 : Z) (c : list worker * state) (i : nat) :
  int_min <= c0 -> c0 + Z.of_nat (length c.1) <= int_max ->
  counter_inv c0 c -> counter_inv c0 (sched_step worker_step c i).
Proof.
  intros Hlo Hhi Hinv. destruct c as [p s]. cbn [fst snd] in *.
  destruct (p !! i) as [w|] eqn:Ei.
  2:{ unfold sched_step. cbn [fst snd]. now rewrite Ei. }
  pose proof (take_drop_middle p i w Ei) as Hp.
  assert (Hi : length (take i p) = i).
  { apply length_take_le. apply lookup_lt_Some in Ei. lia. }
  set (before := take i p) in *. set (after := drop (S i) p) in *.
  clearbody before after. subst p. subst i. clear Ei.
  rewrite sched_step_middle.
  destruct Hinv as (Hc & Hpos & Hall). cbn [fst snd] in *.
  rewrite count_written_app in *. cbn [count_written] in *.
  rewrite length_app in Hhi. cbn [length] in Hhi.
  pose proof (count_written_le before). pose proof (count_written_le after).
  apply Forall_app in Hall as [Hb Ha].
  apply Forall_cons in Ha as [Hw Ha].
  unfold counter_inv. cbn [fst snd].
  rewrite count_written_app. cbn [count_written].
  pose proof (worker_step_g_counter w s) as Hg.
  destruct w as [|tmp| | |r]; cbn [worker_step fst has_written] in *;
    try rewrite Hg.
  - (* the read *)
    split; [exact Hc|]. split; [exact Hpos|].
    apply Forall_app. split; [exact Hb|]. apply Forall_cons. split; [exact Hc|exact Ha].
  - (* the write *)
    assert (Hw32 : wrap32 (tmp + 1) = tmp + 1).
    { apply wrap32_id. unfold in_int. lia. }
    rewrite Hw32.
    split; [lia|]. split; [lia|].
    apply Forall_app. split; [|apply Forall_cons; split; [exact I|]].
    + eapply Forall_impl; [exact Hb|]. intros [] ?; cbn in *; lia.
    + eapply Forall_impl; [exact Ha|]. intros [] ?; cbn in *; lia.
  - split; [exact Hc|]. split; [exact Hpos|].
    apply Forall_app. split; [exact Hb|]. apply Forall_cons. split; [exact I|exact Ha].
  - split; [exact Hc|]. split; [exact Hpos|].
    apply Forall_app. split; [exact Hb|]. apply Forall_cons. split; [exact I|exact Ha].
  - split; [exact Hc|]. split; [exact Hpos|].
    apply Forall_app. split; [exact Hb|]. apply Forall_cons. split; [exact I|exact Ha].
Qed.

Lemma counter_inv_run (c0 : Z) (sch : list nat) :
  forall c, int_min <= c0 -> c0 + Z.of_nat (length c.1) <= int_max ->
    counter_inv c0 c -> counter_inv c0 (run_schedule worker_step sch c).
Proof.
  induction sch as [|i sch IH]; intros c Hlo Hhi Hinv; [exact Hinv|].
  cbn. apply IH; [exact Hlo | | now apply counter_inv_step].
  now rewrite sched_step_length.
Qed.

Lemma counter_inv_start (n : nat) (s : state) :
  counter_inv (g_counter s) (workers n, s).
Proof.
  unfold counter_inv, workers. cbn [fst snd].
  rewrite count_written_replicate_read.
  split; [lia|]. split; [lia|].
  apply Forall_forall. intros w Hw. apply elem_of_replicate in Hw as [-> _].
  exact I.
Qed.

(** X8: Under every schedule [n] workers leave [g_counter] between its
    former value and that value plus [n]; once all have returned (and
    there is at least one) it has gone up by at least one.  Updates
    can be lost, but none is invented and not all are lost. *)
Theorem workers_counter_bounds (n : nat) (sch : list nat) (s : state) :
  in_int (g_counter s) -> g_counter s + Z.of_nat n <= int_max ->
  let c := run_schedule worker_step sch (workers n, s) in
  g_counter s <= g_counter c.2 <= g_counter s + Z.of_nat n
  /\ (Forall (fun w => worker_finished w = true) c.1 -> (0 < n)%nat ->
      g_counter s + 1 <= g_counter c.2).
Proof.
  intros [Hlo _] Hhi. cbv zeta.
  assert (Hlen : length (workers n) = n) by apply length_replicate.
  pose proof (counter_inv_run (g_counter s) sch (workers n, s) Hlo) as Hinv.
  cbn [fst] in Hinv. rewrite Hlen in Hinv.
  specialize (Hinv Hhi (counter_inv_start n s)).
  pose proof (run_schedule_length worker_step sch (workers n, s)) as Hl.
  cbn [fst] in Hl. rewrite Hlen in Hl.
  destruct Hinv as (Hc & Hpos & _).
  pose proof (count_written_le (run_schedule worker_step sch (workers n, s)).1).
  split; [lia|].
  intros Hfin Hn. apply Hpos.
  rewrite (count_written_finished _ Hfin). lia.
Qed.

Lemma workers_counter_bounds_witness :
  let c := run_schedule worker_step lost_update_schedule (workers 2, initial_state []) in
  0 <= g_counter c.2 <= 2.
Proof.
  refine (proj1 (workers_counter_bounds 2 lost_update_schedule (initial_state []) _ _)).
  - unfold in_int, int_min, int_max. cbn. lia.
  - unfold int_max. cbn. lia.
Defined.

Lemma serial_schedule_counts_witness :
  let c := run_schedule worker_step (serial_schedule 3) (workers 3, initial_state []) in
  c.1 = replicate 3 (W_done NULL) /\ g_counter c.2 = 3.
Proof.
  refine (serial_schedule_counts 3 (initial_state []) _).
  unfold in_int, int_min, int_max. cbn. lia.
Defined.

(** ** [getInstance] under every schedule *)

Lemma getInstance_twice_witness :
  let r1 := BadSingleton.getInstance (initial_state []) in
  BadSingleton.getInstance r1.2 = (r1.1, r1.2).
Proof.
  refine (getInstance_twice (initial_state []) _). discriminate.
Defined.

Lemma new_singleton (s : state) :
  heap_wf s -> 0 < brk s ->
  let r := BadSingleton.new_ s in
  r.1 = brk s
  /\ heap_wf r.2 /\ 0 < brk r.2
  /\ instance r.2 = instance s
  /\ singleton_at r.2 r.1
  /\ (forall p b, blocks s !! p = Some b -> blocks r.2 !! p = Some b).
Proof.
  intros Hwf Hb. cbv zeta. unfold BadSingleton.new_, BadSingleton.ctor.
  cbn [allocate fst snd brk blocks instance].
  unfold sizeof_BadSingleton, sizeof_int.
  change (8 `max` 1) with 8. change ((1000 * 4) `max` 1) with 4000.
  split; [reflexivity|]. split.
  { intros p b. cbn [blocks brk]. rewrite !lookup_insert.
    repeat case_decide; intros H'; try lia. apply Hwf in H'. lia. }
  split; [cbn; lia|]. split; [reflexivity|]. split.
  { split; [unfold NULL; lia|]. cbn [blocks].
    rewrite lookup_insert_ne by lia. apply lookup_insert_eq. }
  intros p b Hp. cbn [blocks]. pose proof (Hwf _ _ Hp).
  rewrite !lookup_insert_ne by lia. exact Hp.
Qed.

(** One step of any caller keeps [callers_inv]. *)
Lemma callers_inv_step (c : list BadSingleton.caller * state) (i : nat) :
  callers_inv c -> callers_inv (sched_step BadSingleton.caller_step c i).
Proof.
  intros Hinv. destruct c as [p s]. cbn [fst snd] in *.
  destruct (p !! i) as [t|] eqn:Ei.
  2:{ unfold sched_step. cbn [fst snd]. now rewrite Ei. }
  pose proof (take_drop_middle p i t Ei) as Hp.
  assert (Hi : length (take i p) = i).
  { apply length_take_le. apply lookup_lt_Some in Ei. lia. }
  set (before := take i p) in *. set (after := drop (S i) p) in *.
  clearbody before after. subst p. subst i. clear Ei.
  rewrite sched_step_middle.
  destruct Hinv as (Hwf & Hb & Hinst & Hall). cbn [fst snd] in *.
  apply Forall_app in Hall as [Hbe Haf].
  apply Forall_cons in Haf as [Ht Haf].
  unfold callers_inv. cbn [fst snd].
  destruct t as [| | |r]; cbn [BadSingleton.caller_step fst snd].
  - (* the test *)
    split; [exact Hwf|]. split; [exact Hb|]. split; [exact Hinst|].
    apply Forall_app. split; [exact Hbe|]. apply Forall_cons. split; [|exact Haf].
    destruct (Z.eqb_spec (instance s) NULL); [exact I | assumption].
  - (* the construction *)
    destruct (new_singleton s Hwf Hb) as (Hr & Hwf' & Hb' & _ & Hs & Hkeep).
    destruct (BadSingleton.new_ s) as [q s'] eqn:En. cbn [fst snd] in *.
    assert (Hkeep' : forall x, singleton_at s x -> singleton_at (set_instance q s') x).
    { intros x [Hx1 Hx2]. split; [exact Hx1|]. cbn. now apply Hkeep. }
    assert (Hq : q <> NULL) by apply Hs.
    split; [exact Hwf'|]. split; [exact Hb'|].
    split; [intros _; exact Hs|].
    apply Forall_app. split; [|apply Forall_cons; split; [exact Hq|]].
    + eapply Forall_impl; [exact Hbe|]. intros [] ?; cbn in *; auto.
    + eapply Forall_impl; [exact Haf|]. intros [] ?; cbn in *; auto.
  - (* the read of the result *)
    split; [exact Hwf|]. split; [exact Hb|]. split; [exact Hinst|].
    apply Forall_app. split; [exact Hbe|]. apply Forall_cons. split; [|exact Haf].
    now apply Hinst.
  - split; [exact Hwf|]. split; [exact Hb|]. split; [exact Hinst|].
    apply Forall_app. split; [exact Hbe|]. apply Forall_cons. split; [exact Ht|exact Haf].
Qed.

Lemma callers_inv_run (sch : list nat) :
  forall c, callers_inv c -> callers_inv (run_schedule BadSingleton.caller_step sch c).
Proof.
  induction sch as [|i sch IH]; intros c Hinv; [exact Hinv|].
  cbn. apply IH. now apply callers_inv_step.
Qed.

(** X10: However the calls interleave, what [getInstance] returns is never
    null and always points to a [BadSingleton] that is in the heap:
    the race can build several objects, but no caller gets a pointer
    to none. *)
Theorem getInstance_any_schedule (n : nat) (sch : list nat) (s : state)
    (i : nat) (r : Z) :
  heap_wf s -> 0 < brk s -> instance s = NULL ->
  (run_schedule BadSingleton.caller_step sch
     (replicate n BadSingleton.G_test, s)).1 !! i = Some (BadSingleton.G_done r) ->
  r <> NULL
  /\ blocks (run_schedule BadSingleton.caller_step sch
               (replicate n BadSingleton.G_test, s)).2 !! r
     = Some (Block ByNew sizeof_BadSingleton).
Proof.
  intros Hwf Hb Hi Hr.
  assert (H0 : callers_inv (replicate n BadSingleton.G_test, s)).
  { split; [exact Hwf|]. split; [exact Hb|]. cbn [fst snd].
    split; [intros; contradiction|].
    apply Forall_forall. intros t Ht. apply elem_of_replicate in Ht as [-> _].
    exact I. }
  pose proof (callers_inv_run sch _ H0) as (_ & _ & _ & Hall).
  rewrite Forall_lookup in Hall. exact (Hall i _ Hr).
Qed.

Lemma getInstance_any_schedule_witness :
  8104 <> NULL
  /\ blocks (run_schedule BadSingleton.caller_step racing_first_calls
               (replicate 2 BadSingleton.G_test, initial_state [])).2 !! 8104
     = Some (Block ByNew sizeof_BadSingleton).
Proof.
  refine (getInstance_any_schedule 2 racing_first_calls (initial_state [])
            1 8104 (initial_state_wf []) _ _ _); reflexivity.
Defined.

(** ** [container_misuse] *)

Lemma decimal_short (i : Z) :
  0 <= i < 100 -> (length (decimal i) <= 2)%nat.
Proof.
  intros Hi.
  assert (H : forallb (fun k => Nat.leb (length (decimal (Z.of_nat k))) 2)
                (seq 0 100) = true) by (vm_compute; reflexivity).
  rewrite forallb_forall in H.
  specialize (H (Z.to_nat i)). rewrite Z2Nat.id in H by lia.
  apply Nat.leb_le, H, in_seq. lia.
Qed.

Lemma container_misuse_loop_spec (fuel : nat) :
  forall (i : Z) (string_map : gmap Z Z) (s : state),
    heap_wf s -> 0 <= i <= 100 -> (Z.to_nat (100 - i) <= fuel)%nat ->
    let r := container_misuse_loop fuel i string_map s in
    heap_wf r.2
    /\ brk r.2 = brk s + 50 * (100 - i)
    /\ size (blocks r.2) = (size (blocks s) + Z.to_nat (100 - i))%nat
    /\ (forall a, a < brk s \/ brk s + 50 * (100 - i) <= a ->
                  mem r.2 !! a = mem s !! a)
    /\ (forall p b, blocks s !! p = Some b -> blocks r.2 !! p = Some b).
Proof.
  induction fuel as [|fuel IH]; intros i string_map s Hwf Hi Hf; cbv zeta.
  - assert (i = 100) as -> by lia. cbn.
    split; [exact Hwf|]. split; [lia|]. split; [lia|]. split; auto.
  - cbn [container_misuse_loop]. destruct (Z.ltb_spec i 100) as [Hlt|Hge].
    2:{ assert (i = 100) as -> by lia. cbn [fst snd].
        split; [exact Hwf|]. split; [lia|]. split; [cbn; lia|]. split; auto. }
    assert (Hw : wrap32 (i + 1) = i + 1).
    { apply wrap32_id. unfold in_int, int_min, int_max. lia. }
    rewrite Hw.
    set (s1 := (malloc 50 s).2).
    set (s2 := strcpy (brk s) (cstr "String " ++ decimal i) s1).
    change (malloc 50 s) with (brk s, s1). cbv iota. fold s2.
    assert (Hwf2 : heap_wf s2) by exact (allocate_wf ByMalloc 50 s Hwf).
    assert (Hbrk2 : brk s2 = brk s + 50) by reflexivity.
    assert (Hsz2 : size (blocks s2) = S (size (blocks s)))
      by exact (allocate_size ByMalloc 50 s Hwf).
    destruct (IH (i + 1) (<[i := brk s]> string_map) s2 Hwf2) as
      (Hwf' & Hbrk' & Hsz' & Hfr' & Hk'); [lia | lia |].
    split; [exact Hwf'|]. split; [rewrite Hbrk', Hbrk2; lia|].
    split; [rewrite Hsz', Hsz2; lia|]. split.
    + intros a Ha. rewrite Hfr' by (rewrite Hbrk2; lia).
      unfold s2. rewrite strcpy_outside; [reflexivity|].
      rewrite length_app. pose proof (decimal_short i ltac:(lia)).
      change (length (cstr "String ")) with 7%nat. lia.
    + intros p b Hp. apply Hk'. exact (allocate_keeps ByMalloc 50 s p b Hwf Hp).
Qed.

(** X19: Every call of [container_misuse] leaves a hundred blocks more in
    the heap, none of which can be reached once the map is cleared; no
    block that was live is touched, and the hundred strings are written
    inside the 5000 bytes obtained, nowhere else. *)
Theorem container_misuse_leaks (s : state) :
  heap_wf s ->
  let r := container_misuse s in
  r.1 = ∅
  /\ size (blocks r.2) = (size (blocks s) + 100)%nat
  /\ (forall p b, blocks s !! p = Some b -> blocks r.2 !! p = Some b)
  /\ (forall a, a < brk s \/ brk s + 5000 <= a -> mem r.2 !! a = mem s !! a).
Proof.
  intros Hwf. cbv zeta. unfold container_misuse.
  destruct (container_misuse_loop_spec 101 0 ∅ s Hwf) as (_ & _ & Hsz & Hfr & Hk);
    [lia | cbn; lia |].
  destruct (container_misuse_loop 101 0 ∅ s) as [m s1]. cbn [fst snd] in *.
  split; [reflexivity|]. split; [exact Hsz|]. split; [exact Hk|exact Hfr].
Qed.

Lemma container_misuse_leaks_witness :
  size (blocks (container_misuse (initial_state [])).2) = 100%nat.
Proof.
  exact (proj1 (proj2 (container_misuse_leaks (initial_state [])
                         (initial_state_wf [])))).
Defined.

(** ** [exception_safety_issues] *)

(** X20: The call always ends by throwing [out_of_range], and at that point
    the stream and the buffer it obtained are still held: one more open
    stream and one more live block than before. *)
Theorem exception_safety_issues_throws (s : state) :
  heap_wf s -> files s !! next_file s = None ->
  exists s',
    exception_safety_issues s = Throws out_of_range s'
    /\ size (blocks s') = S (size (blocks s))
    /\ size (files s') = S (size (files s)).
Proof.
  intros Hwf Hf. eexists. split; [reflexivity|]. cbn. split.
  - apply map_size_insert_None.
    destruct (blocks s !! brk s) as [b|] eqn:E; [|reflexivity].
    apply Hwf in E. lia.
  - now apply map_size_insert_None.
Qed.

Lemma exception_safety_issues_throws_witness :
  exists s',
    exception_safety_issues (initial_state []) = Throws out_of_range s'
    /\ size (blocks s') = 1%nat
    /\ size (files s') = 1%nat.
Proof.
  refine (exception_safety_issues_throws (initial_state [])
            (initial_state_wf []) _).
  reflexivity.
Defined.
